(** * concurrent_ds_cpp: sharded counters and a lock-coupled list

    A shallow embedding of [concurrent_ds.cpp] (the two per-thread counter
    banks and the shared counter) and of [hand_lock_ll.cpp] (the singly
    linked list with a mutex per node, with its destructor and [main]),
    followed by the properties of the design document and of the code that
    can be stated about sequential executions.

    Conventions.
    - A C++ [int] is a [Z] kept inside [INT_MIN, INT_MAX]; every arithmetic
      result goes through [wrap], the two's complement reduction to 32 bits
      ([std::atomic<int>::fetch_add] is defined to wrap; for the plain
      [int] accumulator of [get_approximate_count] this is what the
      generated code does).
    - A pointer is [option loc]: [None] is [nullptr].
    - An operation whose behaviour C++ leaves undefined (index out of range,
      dereferencing a pointer to no live node) is a result of its own,
      [None] for the counters and [Fault] for the list.
    - Atomic operations of a completed execution are replayed in one
      sequential order; the memory order argument has no counterpart. *)

From Stdlib Require Import ZArith List Lia.
From stdpp Require Import base option list list_numbers gmap.

Open Scope Z_scope.

(** ** Machine integers *)

Module Int.

Definition INT_MAX : Z := 2147483647.
Definition INT_MIN : Z := -2147483648.

(** Reduction of a mathematical integer to the 32-bit signed range. *)
Definition wrap (z : Z) : Z :=
  (z + 2147483648) mod 4294967296 - 2147483648.

Definition in_range (z : Z) : Prop := INT_MIN <= z <= INT_MAX.

End Int.

(** ** Exceptions and results of a call *)

Inductive exn : Type :=
| invalid_argument   (* std::invalid_argument *)
| length_error       (* std::length_error *)
| bad_alloc.         (* std::bad_alloc *)

Inductive outcome (A : Type) : Type :=
| Returned (a : A)   (* the call returned normally *)
| Threw (e : exn).   (* an exception left the call *)

Arguments Returned {A} a.
Arguments Threw {A} e.

(** [v[i]] for an [int] index: the index is converted to an unsigned size,
    so a negative one is as far out of range as a large one. *)
Definition at_index (v : list Z) (i : Z) : option Z :=
  if i <? 0 then None else v !! Z.to_nat i.

(** ** concurrent_ds.cpp, class ApproximateConcurrentCounter (lines 8-37) *)

Module ApproximateConcurrentCounter.

Record t : Type := mk {
  thread_counters : list Z;   (* vector<unique_ptr<atomic<int>>> *)
  num_threads : Z
}.

(** The loop of the constructor: [threads] times [push_back(0)]. *)
Fixpoint push_counters (n : nat) (v : list Z) : list Z :=
  match n with
  | O => v
  | S n' => push_counters n' (v ++ [0])
  end.

(** Lines 15-20. [reserve] takes a [size_t]: a negative [threads] becomes
    a size above [max_size()] and [reserve] throws [std::length_error].
    The loop body runs for [i = 0 .. threads-1]. *)
Definition construct (threads : Z) : outcome t :=
  if threads <? 0 then Threw length_error
  else Returned {| thread_counters := push_counters (Z.to_nat threads) [];
                   num_threads := threads |}.

(** Lines 22-24: [thread_counters[thread_id]->fetch_add(1)]. *)
Definition increment (thread_id : Z) (c : t) : option t :=
  x ← at_index (thread_counters c) thread_id;
  Some {| thread_counters :=
            <[Z.to_nat thread_id := Int.wrap (x + 1)]> (thread_counters c);
          num_threads := num_threads c |}.

(** The loop of lines 28-30, [n] iterations left, at index [i]. *)
Fixpoint sum_loop (n : nat) (i total : Z) (v : list Z) : option Z :=
  match n with
  | O => Some total
  | S n' => x ← at_index v i; sum_loop n' (i + 1) (Int.wrap (total + x)) v
  end.

(** Lines 26-32. *)
Definition get_approximate_count (c : t) : option Z :=
  sum_loop (Z.to_nat (num_threads c)) 0 0 (thread_counters c).

(** Lines 34-36. *)
Definition get_thread_count (thread_id : Z) (c : t) : option Z :=
  at_index (thread_counters c) thread_id.

(** Lines 42-44, the loop of [counter_thread]: [target_count] calls of
    [increment(thread_id)]. *)
Fixpoint increment_loop (n : nat) (thread_id : Z) (c : t) : option t :=
  match n with
  | O => Some c
  | S n' => c' ← increment thread_id c; increment_loop n' thread_id c'
  end.

Definition counter_thread (thread_id target_count : Z) (c : t) : option t :=
  increment_loop (Z.to_nat target_count) thread_id c.

(** The states of a bank: one [int] per worker. *)
Definition wf (c : t) : Prop :=
  0 <= num_threads c /\
  length (thread_counters c) = Z.to_nat (num_threads c) /\
  Forall Int.in_range (thread_counters c).

End ApproximateConcurrentCounter.

(** ** concurrent_ds.cpp, class ApproximateConcurrentCounterArray (lines 54-85) *)

Module ApproximateConcurrentCounterArray.

Definition MAX_THREADS : Z := 16.

Record t : Type := mk {
  thread_counters : list Z;   (* atomic<int> [MAX_THREADS] *)
  num_threads : Z
}.

(** The loop of lines 65-67: [thread_counters[i].store(0)]. *)
Fixpoint store_zeros (n : nat) (i : Z) (a : list Z) : list Z :=
  match n with
  | O => a
  | S n' => store_zeros n' (i + 1) (<[Z.to_nat i := 0]> a)
  end.

(** Lines 61-68. [cells] is what the [MAX_THREADS] cells of the member
    array hold before the body runs (nothing initialises the cells the
    loop does not reach). *)
Definition construct (cells : list Z) (threads : Z) : outcome t :=
  if threads >? MAX_THREADS then Threw invalid_argument
  else Returned {| thread_counters := store_zeros (Z.to_nat threads) 0 cells;
                   num_threads := threads |}.

(** Lines 70-72. *)
Definition increment (thread_id : Z) (c : t) : option t :=
  x ← at_index (thread_counters c) thread_id;
  Some {| thread_counters :=
            <[Z.to_nat thread_id := Int.wrap (x + 1)]> (thread_counters c);
          num_threads := num_threads c |}.

Fixpoint sum_loop (n : nat) (i total : Z) (a : list Z) : option Z :=
  match n with
  | O => Some total
  | S n' => x ← at_index a i; sum_loop n' (i + 1) (Int.wrap (total + x)) a
  end.

(** Lines 74-80. *)
Definition get_approximate_count (c : t) : option Z :=
  sum_loop (Z.to_nat (num_threads c)) 0 0 (thread_counters c).

(** Lines 82-84. *)
Definition get_thread_count (thread_id : Z) (c : t) : option Z :=
  at_index (thread_counters c) thread_id.

(** Lines 90-92, the loop of [counter_thread_array]. *)
Fixpoint increment_loop (n : nat) (thread_id : Z) (c : t) : option t :=
  match n with
  | O => Some c
  | S n' => c' ← increment thread_id c; increment_loop n' thread_id c'
  end.

Definition counter_thread_array (thread_id target_count : Z) (c : t)
  : option t :=
  increment_loop (Z.to_nat target_count) thread_id c.

(** The states of a bank: [MAX_THREADS] cells of type [int], of which the
    first [num_threads] are in use. *)
Definition wf (c : t) : Prop :=
  num_threads c <= MAX_THREADS /\
  length (thread_counters c) = Z.to_nat MAX_THREADS /\
  Forall Int.in_range (thread_counters c).

End ApproximateConcurrentCounterArray.

(** ** concurrent_ds.cpp, class SharedCounter (lines 102-114) *)

Module SharedCounter.

Record t : Type := mk {
  counter : Z   (* atomic<int> *)
}.

(** Line 104: [counter{0}]. *)
Definition construct : t := {| counter := 0 |}.

(** Lines 107-109: [counter.fetch_add(1)]. *)
Definition increment (c : t) : t := {| counter := Int.wrap (counter c + 1) |}.

(** Lines 111-113. *)
Definition get_count (c : t) : Z := counter c.

(** Lines 119-121, the loop of [shared_counter_thread]. *)
Fixpoint increment_loop (n : nat) (c : t) : t :=
  match n with
  | O => c
  | S n' => increment_loop n' (increment c)
  end.

Definition shared_counter_thread (thread_id target_count : Z) (c : t) : t :=
  increment_loop (Z.to_nat target_count) c.

End SharedCounter.

Module Vec := ApproximateConcurrentCounter.
Module Arr := ApproximateConcurrentCounterArray.

(** ** Workloads on a counter bank *)

(** A burst: worker [fst] issues [snd] increments in a row. A completed run
    of the workers is the list of its bursts in the order the atomic
    increments took effect; bursts of length one give every interleaving. *)
Definition schedule : Type := list (Z * Z).

Fixpoint run_schedule (s : schedule) (c : Vec.t) : option Vec.t :=
  match s with
  | [] => Some c
  | (id, k) :: s' => c' ← Vec.counter_thread id k c; run_schedule s' c'
  end.

(** Number of increments worker [i] issues in [s] (the spec's k_i). *)
Fixpoint issued (i : Z) (s : schedule) : Z :=
  match s with
  | [] => 0
  | (id, k) :: s' => (if decide (id = i) then Z.max 0 k else 0) + issued i s'
  end.

Definition Zsum (l : list Z) : Z := foldr Z.add 0 l.

(** Sum of the k_i over the worker ids [0 .. C-1]. *)
Definition sum_issued (C : Z) (s : schedule) : Z :=
  Zsum ((fun i => issued i s) <$> seqZ 0 C).

(** The interface calls of a bank, for comparing the two classes. *)
Inductive op : Type :=
| Increment (thread_id : Z)
| ReadSlot (thread_id : Z)
| Total.

(** Runs [ops] and collects what the read calls return, in order. *)
Fixpoint run_vec (ops : list op) (c : Vec.t) : option (list Z) :=
  match ops with
  | [] => Some []
  | Increment id :: ops' => c' ← Vec.increment id c; run_vec ops' c'
  | ReadSlot id :: ops' =>
      x ← Vec.get_thread_count id c; (x ::.) <$> run_vec ops' c
  | Total :: ops' =>
      x ← Vec.get_approximate_count c; (x ::.) <$> run_vec ops' c
  end.

Fixpoint run_arr (ops : list op) (c : Arr.t) : option (list Z) :=
  match ops with
  | [] => Some []
  | Increment id :: ops' => c' ← Arr.increment id c; run_arr ops' c'
  | ReadSlot id :: ops' =>
      x ← Arr.get_thread_count id c; (x ::.) <$> run_arr ops' c
  | Total :: ops' =>
      x ← Arr.get_approximate_count c; (x ::.) <$> run_arr ops' c
  end.

Definition op_in_range (C : Z) (o : op) : Prop :=
  match o with
  | Increment id | ReadSlot id => 0 <= id < C
  | Total => True
  end.

(** When a vector-backed and an array-backed bank of capacity [C] stand for
    the same bank: the cells in use hold the same values. *)
Definition same_bank (C : Z) (cv : Vec.t) (ca : Arr.t) : Prop :=
  Vec.num_threads cv = C /\
  Arr.num_threads ca = C /\
  length (Vec.thread_counters cv) = Z.to_nat C /\
  take (Z.to_nat C) (Arr.thread_counters ca) = Vec.thread_counters cv.

(** A schedule run on the array-backed bank and on the shared counter. *)
Fixpoint run_schedule_arr (s : schedule) (c : Arr.t) : option Arr.t :=
  match s with
  | [] => Some c
  | (id, k) :: s' => c' ← Arr.counter_thread_array id k c; run_schedule_arr s' c'
  end.

Fixpoint run_schedule_shared (s : schedule) (c : SharedCounter.t)
  : SharedCounter.t :=
  match s with
  | [] => c
  | (id, k) :: s' =>
      run_schedule_shared s' (SharedCounter.shared_counter_thread id k c)
  end.

(** Number of increments all workers issue in [s]. *)
Fixpoint total_issued (s : schedule) : Z :=
  match s with
  | [] => 0
  | (_, k) :: s' => Z.max 0 k + total_issued s'
  end.

(** The cells of an array-backed bank that [get_approximate_count] reads. *)
Definition in_use (c : Arr.t) : list Z :=
  take (Z.to_nat (Arr.num_threads c)) (Arr.thread_counters c).

(** ** hand_lock_ll.cpp: node_t and class List *)

Module LinkedList.

Abbreviation loc := positive.

(** Lines 8-12. [n_lock] records whether the mutex is held. *)
Record node_t : Type := mk_node {
  key : Z;
  next : option loc;
  n_lock : bool
}.

(** What a run leaves behind that is not in memory: mutex traffic and the
    lines written to [std::cout]. *)
Inductive event : Type :=
| EvLock (a : loc)
| EvUnlock (a : loc)
| EvPrint (k : Z).

(** Lines 14-17, the data members. *)
Record List : Type := mk_List {
  head : option loc;
  tail : option loc;
  size : Z
}.

(** The free store, the list object, the answers [operator new] will give
    to the coming requests ([false]: the request cannot be satisfied; an
    exhausted list grants every request) and the events so far. *)
Record world : Type := mk_world {
  heap : gmap positive node_t;
  self : List;
  grants : list bool;
  trace : list event
}.

Inductive result (A : Type) : Type :=
| Done (a : A) (w : world)       (* returned [a] *)
| Raised (e : exn) (w : world)   (* left by an exception *)
| Fault                          (* undefined behaviour *)
| Unfinished.                    (* the loop budget ran out *)

Arguments Done {A} a w.
Arguments Raised {A} e w.
Arguments Fault {A}.
Arguments Unfinished {A}.

Definition M (A : Type) : Type := world -> result A.

Definition ret {A} (a : A) : M A := fun w => Done a w.

Definition bind {A B} (m : M A) (f : A -> M B) : M B :=
  fun w =>
    match m w with
    | Done a w' => f a w'
    | Raised e w' => Raised e w'
    | Fault => Fault
    | Unfinished => Unfinished
    end.

#[global] Instance M_ret : MRet M := @ret.
#[global] Instance M_bind : MBind M := fun A B f m => bind m f.

Definition fault {A} : M A := fun _ => Fault.
Definition unfinished {A} : M A := fun _ => Unfinished.

Definition with_heap (h : gmap positive node_t) (w : world) : world :=
  {| heap := h; self := self w; grants := grants w; trace := trace w |}.
Definition with_self (l : List) (w : world) : world :=
  {| heap := heap w; self := l; grants := grants w; trace := trace w |}.
Definition with_grants (g : list bool) (w : world) : world :=
  {| heap := heap w; self := self w; grants := g; trace := trace w |}.
Definition emit (e : event) : M unit :=
  fun w => Done tt {| heap := heap w; self := self w; grants := grants w;
                      trace := trace w ++ [e] |}.

(** [new node_t] (line 21). The throwing [operator new] either yields the
    address of a node that was not live before, with [next] and [n_lock]
    set by their default member initialisers, or leaves by
    [std::bad_alloc]; it has no way to yield [nullptr]. [key] has no
    initialiser: the model puts 0 there until line 26 assigns it. *)
Definition new_node_t : M (option loc) :=
  fun w =>
    match grants w with
    | false :: g => Raised bad_alloc (with_grants g w)
    | g =>
        let a := fresh (dom (heap w)) in
        Done (Some a)
          (with_heap (<[a := mk_node 0 None false]> (heap w))
             (with_grants (List.tl g) w))
    end.

(** [*p]: defined only for a pointer to a live node. *)
Definition load (p : option loc) : M node_t :=
  fun w =>
    match p with
    | None => Fault
    | Some a =>
        match heap w !! a with
        | Some n => Done n w
        | None => Fault
        end
    end.

Definition store (p : option loc) (n : node_t) : M unit :=
  fun w =>
    match p with
    | None => Fault
    | Some a =>
        match heap w !! a with
        | Some _ => Done tt (with_heap (<[a := n]> (heap w)) w)
        | None => Fault
        end
    end.

Definition get_key (p : option loc) : M Z := n ← load p; ret (key n).
Definition get_next (p : option loc) : M (option loc) :=
  n ← load p; ret (next n).
Definition set_key (p : option loc) (k : Z) : M unit :=
  n ← load p; store p (mk_node k (next n) (n_lock n)).
Definition set_next (p q : option loc) : M unit :=
  n ← load p; store p (mk_node (key n) q (n_lock n)).

(** [p->n_lock.lock()]: the run is sequential, so a held mutex is held by
    the caller, and locking it again is undefined. *)
Definition lock (p : option loc) : M unit :=
  n ← load p;
  if n_lock n then fault
  else store p (mk_node (key n) (next n) true);;
       match p with Some a => emit (EvLock a) | None => fault end.

(** [p->n_lock.unlock()]: undefined on a mutex that is not held. *)
Definition unlock (p : option loc) : M unit :=
  n ← load p;
  if n_lock n then
    store p (mk_node (key n) (next n) false);;
    match p with Some a => emit (EvUnlock a) | None => fault end
  else fault.

(** [delete p] on a node: the node stops being live; destroying a held
    mutex is undefined. *)
Definition delete_node (p : option loc) : M unit :=
  n ← load p;
  if n_lock n then fault
  else fun w =>
         match p with
         | Some a => Done tt (with_heap (delete a (heap w)) w)
         | None => Fault
         end.

Definition get_head : M (option loc) := fun w => Done (head (self w)) w.
Definition get_tail : M (option loc) := fun w => Done (tail (self w)) w.
Definition set_head (p : option loc) : M unit :=
  fun w => Done tt (with_self (mk_List p (tail (self w)) (size (self w))) w).
Definition set_tail (p : option loc) : M unit :=
  fun w => Done tt (with_self (mk_List (head (self w)) p (size (self w))) w).

(** [List list{}] (line 69) with the member initialisers of lines 15-17. *)
Definition construct (g : list bool) : world :=
  {| heap := ∅; self := mk_List None None 1000; grants := g; trace := [] |}.

(** Lines 20-43. *)
Definition insert (k : Z) : M Z :=
  new_node ← new_node_t;
  if decide (new_node = None) then ret (-1)
  else
    set_key new_node k;;
    set_next new_node None;;
    t ← get_tail;
    if decide (t = None) then
      set_tail new_node;;
      t ← get_tail;
      set_head t;;
      ret 0
    else
      t ← get_tail;
      lock t;;
      t ← get_tail;
      set_next t new_node;;
      old_tail ← get_tail;
      set_tail new_node;;
      unlock old_tail;;
      ret 0.

(** Lines 48-53, the loop of [traverse] with [curr] as its variable. *)
Fixpoint traverse_loop (fuel : nat) (curr : option loc) : M unit :=
  if decide (curr = None) then ret tt
  else
    match fuel with
    | O => unfinished
    | S fuel' =>
        lock curr;;
        k ← get_key curr;
        emit (EvPrint k);;
        unlock curr;;
        nx ← get_next curr;
        traverse_loop fuel' nx
    end.

(** Lines 46-54. *)
Definition traverse (fuel : nat) : M unit :=
  curr ← get_head; traverse_loop fuel curr.

(** Lines 59-65. *)
Fixpoint destroy (fuel : nat) : M unit :=
  h ← get_head;
  if decide (h = None) then ret tt
  else
    match fuel with
    | O => unfinished
    | S fuel' =>
        temp ← get_head;
        h ← get_head;
        nx ← get_next h;
        set_head nx;;
        delete_node temp;;
        destroy fuel'
    end.

(** Lines 68-75. *)
Definition main (fuel : nat) : result Z :=
  (insert 5;;
   insert 6;;
   traverse fuel;;
   destroy fuel;;
   ret 0) (construct []).

(** The keys written to [std::cout], in order. *)
Fixpoint printed (t : list event) : list Z :=
  match t with
  | [] => []
  | EvPrint k :: t' => k :: printed t'
  | _ :: t' => printed t'
  end.

Definition is_lock (e : event) : bool :=
  match e with EvLock _ => true | _ => false end.

(** Whether [operator new] satisfies the next request. *)
Definition granted (w : world) : bool :=
  match grants w with
  | false :: _ => false
  | _ => true
  end.

(** [lseg h p ls q]: following [next] from [p] in [h] passes through the live
    nodes [ls], in this order, and arrives at [q]. *)
Fixpoint lseg (h : gmap positive node_t) (p : option loc) (ls : list loc)
  (q : option loc) : Prop :=
  match ls with
  | [] => p = q
  | a :: ls' => p = Some a /\ exists n, h !! a = Some n /\ lseg h (next n) ls' q
  end.

(** [reaches h a b]: node [b] is reached from node [a] by following [next]
    zero or more times through live nodes. *)
Inductive reaches (h : gmap positive node_t) : loc -> loc -> Prop :=
| reaches_here a n :
    h !! a = Some n -> reaches h a a
| reaches_next a n b c :
    h !! a = Some n -> next n = Some b -> reaches h b c -> reaches h a c.

(** The shape of a list that holds the keys [ks]: the chain from [head]
    passes through one unlocked node per key and ends at [nullptr], and
    [tail] is its last node. *)
Definition represents (ks : list Z) (w : world) : Prop :=
  exists ls,
    lseg (heap w) (head (self w)) ls None /\
    NoDup ls /\
    tail (self w) = last ls /\
    Forall2 (fun a k => exists n, heap w !! a = Some n /\ key n = k /\
                                  n_lock n = false) ls ks /\
    dom (heap w) = list_to_set ls.

(** The events of a traversal over the nodes [ls] holding the keys [ks]. *)
Fixpoint visits (ls : list loc) (ks : list Z) : list event :=
  match ls, ks with
  | a :: ls', k :: ks' => EvLock a :: EvPrint k :: EvUnlock a :: visits ls' ks'
  | _, _ => []
  end.

(** A caller appending the keys [ks] one after the other. *)
Fixpoint appends (ks : list Z) : M unit :=
  match ks with
  | [] => ret tt
  | k :: ks' => insert k;; appends ks'
  end.

Definition with_size (v : Z) (w : world) : world :=
  with_self (mk_List (head (self w)) (tail (self w)) v) w.

Definition result_map {A} (f : world -> world) (r : result A) : result A :=
  match r with
  | Done a w => Done a (f w)
  | Raised e w => Raised e (f w)
  | Fault => Fault
  | Unfinished => Unfinished
  end.

(** [m] runs the same way whatever [size] holds, and leaves [size] alone. *)
Definition ignores_size {A} (m : M A) : Prop :=
  forall v w, m (with_size v w) = result_map (with_size v) (m w).

(** The world a call leaves, however it ended. *)
Definition world_after {A} (m : M A) (w : world) : world :=
  match m w with
  | Done _ w' | Raised _ w' => w'
  | _ => w
  end.

(** One completed call of [insert] or [traverse]. *)
Definition list_step (w w' : world) : Prop :=
  (exists k r, insert k w = Done r w') \/
  (exists k e, insert k w = Raised e w') \/
  (exists fuel, traverse fuel w = Done tt w').

(** The list of [main] after its two appends. *)
Definition main_list : world := world_after (appends [5; 6]) (construct []).

(** What a caller can do with a list between its construction and its
    destruction: append (the call returns 0, or leaves by an exception
    that the caller handles) and traverse. [history ks w] holds when such
    a sequence of calls leads to [w] and [ks] are the keys of the appends
    that returned, oldest first. *)
Inductive history : list Z -> world -> Prop :=
| hist_construct g :
    history [] (construct g)
| hist_insert ks w k w' :
    history ks w -> insert k w = Done 0 w' -> history (ks ++ [k]) w'
| hist_insert_raised ks w k e w' :
    history ks w -> insert k w = Raised e w' -> history ks w'
| hist_traverse ks w fuel w' :
    history ks w -> traverse fuel w = Done tt w' -> history ks w'.

(** The free store after [delete] of the nodes [ls], first to last. *)
Fixpoint release (ls : list loc) (h : gmap positive node_t)
  : gmap positive node_t :=
  match ls with
  | [] => h
  | a :: ls' => release ls' (delete a h)
  end.

(** Checks a trace against the locking protocol, [held] being the mutex held
    so far: a mutex is acquired only while none is held, the mutex released
    is the one held, a key is printed only under a held mutex, and none is
    held at the end. *)
Fixpoint discipline (held : option loc) (t : list event) : bool :=
  match t with
  | [] => match held with None => true | Some _ => false end
  | EvLock a :: t' =>
      match held with None => discipline (Some a) t' | Some _ => false end
  | EvUnlock a :: t' =>
      match held with
      | Some b => if decide (a = b) then discipline None t' else false
      | None => false
      end
  | EvPrint _ :: t' =>
      match held with Some _ => discipline held t' | None => false end
  end.

(** The shape of [main] for any keys: append them, traverse, destroy. *)
Definition session (ks : list Z) (fuel : nat) : M Z :=
  appends ks;;
  traverse fuel;;
  destroy fuel;;
  ret 0.

End LinkedList.

(** * Properties *)

(** ** 32-bit arithmetic *)

Section IntFacts.
Import Int.

Lemma wrap_id z : in_range z -> wrap z = z.
Proof.
  unfold in_range, INT_MIN, INT_MAX, wrap. intros Hz.
  rewrite Z.mod_small by lia. lia.
Qed.

Lemma wrap_in_range z : in_range (wrap z).
Proof.
  unfold in_range, INT_MIN, INT_MAX, wrap.
  pose proof (Z.mod_pos_bound (z + 2147483648) 4294967296). lia.
Qed.

Lemma wrap_add_l a b : wrap (wrap a + b) = wrap (a + b).
Proof.
  unfold wrap. f_equal.
  replace ((a + 2147483648) mod 4294967296 - 2147483648 + b + 2147483648)
    with ((a + 2147483648) mod 4294967296 + b) by lia.
  rewrite Zplus_mod_idemp_l. f_equal. lia.
Qed.

Lemma wrap_max_succ : wrap (INT_MAX + 1) = INT_MIN.
Proof. reflexivity. Qed.

End IntFacts.

(** ** Indexing *)

Lemma at_index_Some v i x :
  at_index v i = Some x <-> 0 <= i /\ v !! Z.to_nat i = Some x.
Proof.
  unfold at_index. destruct (Z.ltb_spec i 0); split.
  - discriminate.
  - intros [? _]. lia.
  - auto.
  - tauto.
Qed.

Lemma at_index_lt v i :
  0 <= i < Z.of_nat (length v) -> is_Some (at_index v i).
Proof.
  intros Hi. unfold at_index. destruct (Z.ltb_spec i 0); [lia|].
  apply lookup_lt_is_Some. lia.
Qed.

Lemma at_index_insert_eq v i x y :
  at_index v i = Some x -> at_index (<[Z.to_nat i := y]> v) i = Some y.
Proof.
  rewrite !at_index_Some. intros [Hi Hx]. split; [assumption|].
  apply list_lookup_insert_eq. eapply lookup_lt_Some, Hx.
Qed.

Lemma at_index_insert_ne v i j y :
  0 <= i -> i <> j -> at_index (<[Z.to_nat i := y]> v) j = at_index v j.
Proof.
  intros Hi Hne. unfold at_index. destruct (Z.ltb_spec j 0); [reflexivity|].
  apply list_lookup_insert_ne. lia.
Qed.

(** ** The vector-backed bank *)

Section VecFacts.
Import Int.

Lemma push_counters_replicate n v :
  Vec.push_counters n v = v ++ replicate n 0.
Proof.
  revert v. induction n as [|n IH]; intros v; simpl.
  - by rewrite app_nil_r.
  - rewrite IH, <- app_assoc. reflexivity.
Qed.

Lemma vec_construct_ok C :
  0 <= C ->
  Vec.construct C = Returned (Vec.mk (replicate (Z.to_nat C) 0) C).
Proof.
  intros HC. unfold Vec.construct.
  destruct (Z.ltb_spec C 0); [lia|].
  by rewrite push_counters_replicate.
Qed.

Lemma vec_construct_wf C : 0 <= C -> Vec.wf (Vec.mk (replicate (Z.to_nat C) 0) C).
Proof.
  intros HC. repeat split; simpl; try lia.
  - by rewrite length_replicate.
  - apply Forall_replicate. unfold in_range, INT_MIN, INT_MAX. lia.
Qed.

Lemma vec_increment_Some id c x :
  at_index (Vec.thread_counters c) id = Some x ->
  Vec.increment id c =
    Some (Vec.mk (<[Z.to_nat id := wrap (x + 1)]> (Vec.thread_counters c))
            (Vec.num_threads c)).
Proof. intros Hx. unfold Vec.increment. by rewrite Hx. Qed.

Lemma vec_increment_wf id c c' :
  Vec.wf c -> Vec.increment id c = Some c' -> Vec.wf c'.
Proof.
  intros (Hn & Hlen & Hall) Hinc. unfold Vec.increment in Hinc.
  destruct (at_index (Vec.thread_counters c) id) as [x|]; [|discriminate].
  injection Hinc as <-. repeat split; simpl; [assumption| |].
  - by rewrite length_insert.
  - apply Forall_insert; [assumption | apply wrap_in_range].
Qed.

(** [n] increments in a row add [n] to the slot, modulo 2^32. *)
Lemma vec_increment_loop n id c x :
  in_range x ->
  at_index (Vec.thread_counters c) id = Some x ->
  Vec.increment_loop n id c =
    Some (Vec.mk (<[Z.to_nat id := wrap (x + Z.of_nat n)]> (Vec.thread_counters c))
            (Vec.num_threads c)).
Proof.
  revert c x. induction n as [|n IH]; intros c x Hr Hx.
  - cbn [Vec.increment_loop]. rewrite Z.add_0_r, wrap_id by assumption.
    apply at_index_Some in Hx as [_ Hx]. rewrite list_insert_id by assumption.
    by destruct c.
  - cbn [Vec.increment_loop]. rewrite (vec_increment_Some _ _ _ Hx).
    cbn [mbind option_bind].
    rewrite (IH _ (wrap (x + 1))).
    + cbn [Vec.thread_counters Vec.num_threads].
      rewrite list_insert_insert_eq, wrap_add_l. do 4 f_equal. lia.
    + apply wrap_in_range.
    + cbn [Vec.thread_counters]. by eapply at_index_insert_eq.
Qed.

Lemma vec_counter_thread id k c x :
  in_range x ->
  at_index (Vec.thread_counters c) id = Some x ->
  Vec.counter_thread id k c =
    Some (Vec.mk (<[Z.to_nat id := wrap (x + Z.max 0 k)]> (Vec.thread_counters c))
            (Vec.num_threads c)).
Proof.
  intros Hr Hx. unfold Vec.counter_thread.
  rewrite (vec_increment_loop _ _ _ x Hr Hx). do 4 f_equal. lia.
Qed.

Lemma issued_nonneg i s : 0 <= issued i s.
Proof.
  induction s as [|[id k] s IH]; simpl; [lia|].
  destruct (decide (id = i)); lia.
Qed.

(** The bank after a schedule: slot [i] has grown by k_i, modulo 2^32. *)
Lemma run_schedule_slots s c :
  Vec.wf c ->
  Forall (fun b => 0 <= fst b < Vec.num_threads c) s ->
  run_schedule s c =
    Some (Vec.mk (imap (fun i x => wrap (x + issued (Z.of_nat i) s))
                    (Vec.thread_counters c))
            (Vec.num_threads c)).
Proof.
  revert c. induction s as [|[id k] s IH]; intros c Hwf Hids.
  - cbn [run_schedule]. destruct c as [v n]. do 2 f_equal.
    cbn [Vec.thread_counters]. apply list_eq; intros i.
    rewrite list_lookup_imap. destruct Hwf as (_ & _ & Hall).
    destruct (v !! i) as [x|] eqn:Hi; [|reflexivity]. cbn.
    rewrite Z.add_0_r, wrap_id; [reflexivity|].
    eapply Forall_lookup_1; [exact Hall|exact Hi].
  - apply Forall_cons in Hids as [Hid Hids]. cbn [fst] in Hid.
    destruct Hwf as (Hn & Hlen & Hall).
    destruct (at_index_lt (Vec.thread_counters c) id) as [x Hx]; [lia|].
    assert (Hr : in_range x).
    { apply at_index_Some in Hx as [_ Hx]. eapply Forall_lookup_1; eassumption. }
    cbn [run_schedule]. rewrite (vec_counter_thread _ k _ x Hr Hx).
    cbn [mbind option_bind]. rewrite IH; cbn [Vec.thread_counters Vec.num_threads].
    + do 2 f_equal. apply list_eq; intros i. rewrite !list_lookup_imap.
      apply at_index_Some in Hx as [Hid0 Hx].
      destruct (decide (i = Z.to_nat id)) as [->|Hne].
      * rewrite list_lookup_insert_eq by (eapply lookup_lt_Some, Hx).
        rewrite Hx. cbn. rewrite wrap_add_l. do 2 f_equal.
        destruct (decide (id = Z.of_nat (Z.to_nat id))); lia.
      * rewrite list_lookup_insert_ne by lia.
        destruct (Vec.thread_counters c !! i); [|reflexivity]. cbn.
        destruct (decide (id = Z.of_nat i)); [lia|]. do 2 f_equal.
    + repeat split; cbn; [assumption| |].
      * by rewrite length_insert.
      * apply Forall_insert; [assumption|apply wrap_in_range].
    + assumption.
Qed.

(** The loop of [get_approximate_count] folds the wrapped addition over the
    cells it walks. *)
Lemma vec_sum_loop_foldl n i total v :
  0 <= i ->
  (Z.to_nat i + n <= length v)%nat ->
  Vec.sum_loop n i total v =
    Some (foldl (fun t x => wrap (t + x)) total (take n (drop (Z.to_nat i) v))).
Proof.
  revert i total. induction n as [|n IH]; intros i total Hi Hlen.
  - reflexivity.
  - destruct (lookup_lt_is_Some_2 v (Z.to_nat i)) as [x Hx]; [lia|].
    cbn [Vec.sum_loop]. unfold at_index at 1.
    destruct (Z.ltb_spec i 0); [lia|]. rewrite Hx. cbn [mbind option_bind].
    rewrite IH by lia. rewrite (drop_S _ _ _ Hx). cbn [take foldl].
    replace (Z.to_nat (i + 1)) with (S (Z.to_nat i)) by lia. reflexivity.
Qed.

Lemma Zsum_nonneg l : Forall (fun x => 0 <= x) l -> 0 <= Zsum l.
Proof.
  induction 1 as [|x l Hx _ IH]; unfold Zsum in *; simpl; lia.
Qed.

Lemma Zsum_elem_le l x :
  Forall (fun x => 0 <= x) l -> x ∈ l -> x <= Zsum l.
Proof.
  induction 1 as [|y l Hy Hl IH]; intros Hin.
  - by apply elem_of_nil in Hin.
  - pose proof (Zsum_nonneg l Hl). unfold Zsum in *. simpl.
    apply elem_of_cons in Hin as [->|Hin]; [lia|]. specialize (IH Hin). lia.
Qed.

(** Without overflow the fold is the mathematical sum. *)
Lemma foldl_wrap_exact l total :
  Forall (fun x => 0 <= x) l ->
  0 <= total ->
  total + Zsum l <= INT_MAX ->
  foldl (fun t x => wrap (t + x)) total l = total + Zsum l.
Proof.
  intros Hl. revert total. induction Hl as [|x l Hx Hl IH]; intros total Ht Hsum.
  - unfold Zsum. simpl. lia.
  - pose proof (Zsum_nonneg l Hl) as Hl0. unfold Zsum in *. simpl in *.
    rewrite wrap_id by (unfold in_range, INT_MIN, INT_MAX in *; lia).
    rewrite IH; lia.
Qed.

End VecFacts.

(** ** Exactness of the aggregated count *)

Section Totals.
Import Int.

Lemma vec_total_foldl c :
  Vec.wf c ->
  Vec.get_approximate_count c =
    Some (foldl (fun t x => wrap (t + x)) 0 (Vec.thread_counters c)).
Proof.
  intros (Hn & Hlen & _). unfold Vec.get_approximate_count.
  rewrite vec_sum_loop_foldl by lia.
  change (Z.to_nat 0) with O. rewrite drop_0, take_ge by lia. reflexivity.
Qed.

Lemma slots_after_schedule C s :
  0 <= C ->
  sum_issued C s <= INT_MAX ->
  imap (fun i x => wrap (x + issued (Z.of_nat i) s)) (replicate (Z.to_nat C) 0)
  = (fun i => issued i s) <$> seqZ 0 C.
Proof.
  intros HC Hsum. apply list_eq; intros i.
  rewrite list_lookup_imap, list_lookup_fmap.
  destruct (decide (i < Z.to_nat C)%nat) as [Hlt|Hge].
  - rewrite lookup_replicate_2, lookup_seqZ_lt by lia. cbn.
    f_equal. rewrite !Z.add_0_l. apply wrap_id.
    pose proof (issued_nonneg (Z.of_nat i) s).
    assert (issued (Z.of_nat i) s <= sum_issued C s).
    { apply Zsum_elem_le.
      - apply Forall_fmap, Forall_forall. intros j _. apply issued_nonneg.
      - apply list_elem_of_fmap. exists (Z.of_nat i). split; [reflexivity|].
        apply elem_of_seqZ. lia. }
    unfold in_range, INT_MIN, INT_MAX in *. lia.
  - rewrite (proj1 (lookup_replicate_None _ _ _)), lookup_seqZ_ge by lia.
    reflexivity.
Qed.

(** C1 (amended). For every capacity C >= 1 and every completed run in which
    the workers 0 .. C-1 issue k_i increments each, in any interleaving, such
    that the sum of the k_i does not exceed INT_MAX = 2147483647, a following
    [get_approximate_count] returns exactly the sum of the k_i. *)
Theorem total_after_increments C s :
  1 <= C ->
  Forall (fun b => 0 <= fst b < C) s ->
  sum_issued C s <= INT_MAX ->
  exists c c',
    Vec.construct C = Returned c /\
    run_schedule s c = Some c' /\
    Vec.get_approximate_count c' = Some (sum_issued C s).
Proof.
  intros HC Hids Hsum.
  pose proof (vec_construct_wf C ltac:(lia)) as Hwf.
  eexists. eexists. split; [apply vec_construct_ok; lia|].
  split; [apply run_schedule_slots; assumption|].
  cbn [Vec.thread_counters Vec.num_threads].
  rewrite slots_after_schedule by (assumption || lia).
  rewrite vec_total_foldl; cbn [Vec.thread_counters].
  - rewrite foldl_wrap_exact; try reflexivity; try lia.
    + apply Forall_fmap, Forall_forall. intros j _. apply issued_nonneg.
    + exact Hsum.
  - repeat split; cbn; [lia| |].
    + by rewrite length_fmap, length_seqZ.
    + apply Forall_fmap, Forall_forall. intros j Hj. cbn.
      pose proof (issued_nonneg j s).
      assert (issued j s <= sum_issued C s).
      { apply Zsum_elem_le.
        - apply Forall_fmap, Forall_forall. intros ? _. apply issued_nonneg.
        - apply list_elem_of_fmap. by exists j. }
      unfold in_range, INT_MIN, INT_MAX in *. lia.
Qed.

(** The run of [main]: four workers, one million increments each. *)
Lemma total_after_increments_witness :
  exists c c',
    Vec.construct 4 = Returned c /\
    run_schedule [(0, 1000000); (1, 1000000); (2, 1000000); (3, 1000000)] c
      = Some c' /\
    Vec.get_approximate_count c' = Some 4000000.
Proof.
  apply (total_after_increments 4
           [(0, 1000000); (1, 1000000); (2, 1000000); (3, 1000000)]).
  - lia.
  - repeat (apply Forall_cons_2; [simpl; lia|]). apply Forall_nil_2.
  - vm_compute. discriminate.
Defined.

(** C1, as stated, fails once the sum of the k_i passes INT_MAX: with one
    worker that issues 2147483647 increments and then one more, the sum of
    the k_i is 2147483648, the slot has wrapped to -2147483648 and that is
    what [get_approximate_count] returns. *)
Lemma total_after_increments_overflow :
  exists c c',
    Vec.construct 1 = Returned c /\
    run_schedule [(0, 2147483647); (0, 1)] c = Some c' /\
    sum_issued 1 [(0, 2147483647); (0, 1)] = 2147483648 /\
    Vec.get_approximate_count c' = Some (-2147483648) /\
    Vec.get_approximate_count c'
      <> Some (sum_issued 1 [(0, 2147483647); (0, 1)]).
Proof.
  eexists. eexists. split; [apply vec_construct_ok; lia|].
  split.
  { apply run_schedule_slots.
    - apply vec_construct_wf. lia.
    - repeat (apply Forall_cons_2; [simpl; lia|]). apply Forall_nil_2. }
  split; [reflexivity|].
  split; [vm_compute; reflexivity|].
  vm_compute. discriminate.
Qed.

End Totals.

(** ** The array-backed bank *)

Section ArrFacts.
Import Int.

Lemma store_zeros_lookup n i a j :
  0 <= i ->
  Arr.store_zeros n i a !! j =
    if decide ((Z.to_nat i <= j < Z.to_nat i + n)%nat /\ (j < length a)%nat)
    then Some 0 else a !! j.
Proof.
  revert i a. induction n as [|n IH]; intros i a Hi; cbn [Arr.store_zeros].
  - case_decide; [lia|reflexivity].
  - rewrite IH by lia. rewrite length_insert.
    replace (Z.to_nat (i + 1)) with (S (Z.to_nat i)) by lia.
    destruct (decide (j = Z.to_nat i)) as [->|Hne].
    + repeat case_decide; try lia; try reflexivity.
      * by rewrite list_lookup_insert_eq by lia.
      * rewrite list_insert_ge by lia. reflexivity.
    + rewrite list_lookup_insert_ne by lia.
      repeat case_decide; try lia; reflexivity.
Qed.

Lemma store_zeros_length n i a : length (Arr.store_zeros n i a) = length a.
Proof.
  revert i a. induction n as [|n IH]; intros i a; cbn [Arr.store_zeros].
  - reflexivity.
  - by rewrite IH, length_insert.
Qed.

Lemma arr_construct_ok cells C :
  C <= Arr.MAX_THREADS ->
  Arr.construct cells C =
    Returned (Arr.mk (Arr.store_zeros (Z.to_nat C) 0 cells) C).
Proof.
  intros HC. unfold Arr.construct.
  destruct (Z.gtb_spec C Arr.MAX_THREADS); [lia|reflexivity].
Qed.

Lemma arr_increment_Some id c x :
  at_index (Arr.thread_counters c) id = Some x ->
  Arr.increment id c =
    Some (Arr.mk (<[Z.to_nat id := wrap (x + 1)]> (Arr.thread_counters c))
            (Arr.num_threads c)).
Proof. intros Hx. unfold Arr.increment. by rewrite Hx. Qed.

End ArrFacts.

(** ** Effect of one increment *)

Section Increment.
Import Int.

Lemma wrap_succ x :
  in_range x ->
  wrap (x + 1) = if decide (x = INT_MAX) then INT_MIN else x + 1.
Proof.
  intros Hx. case_decide as Hmax.
  - subst x. reflexivity.
  - apply wrap_id. unfold in_range, INT_MIN, INT_MAX in *. lia.
Qed.

(** C6 (amended). In every state of a bank of either class and for every
    worker id with 0 <= id < capacity (the vector-backed bank and the
    array-backed bank each with a worker id of its own, [idv] and [ida]),
    [increment(id)] takes slot id from its value x to x + 1 when
    x < INT_MAX = 2147483647 and to INT_MIN = -2147483648 when x = INT_MAX,
    and leaves every other slot and the capacity as they were. *)
Theorem increment_slot_effect cv ca idv ida :
  Vec.wf cv -> Arr.wf ca ->
  0 <= idv < Vec.num_threads cv ->
  0 <= ida < Arr.num_threads ca ->
  (exists x cv',
      Vec.get_thread_count idv cv = Some x /\
      Vec.increment idv cv = Some cv' /\
      Vec.get_thread_count idv cv' =
        Some (if decide (x = INT_MAX) then INT_MIN else x + 1) /\
      (forall j, j <> idv ->
                 Vec.get_thread_count j cv' = Vec.get_thread_count j cv) /\
      Vec.num_threads cv' = Vec.num_threads cv) /\
  (exists x ca',
      Arr.get_thread_count ida ca = Some x /\
      Arr.increment ida ca = Some ca' /\
      Arr.get_thread_count ida ca' =
        Some (if decide (x = INT_MAX) then INT_MIN else x + 1) /\
      (forall j, j <> ida ->
                 Arr.get_thread_count j ca' = Arr.get_thread_count j ca) /\
      Arr.num_threads ca' = Arr.num_threads ca).
Proof.
  intros (Hvn & Hvlen & Hvall) (Han & Halen & Haall) Hv Ha. split.
  - destruct (at_index_lt (Vec.thread_counters cv) idv) as [x Hx]; [lia|].
    exists x. eexists. split; [exact Hx|].
    split; [apply vec_increment_Some, Hx|].
    unfold Vec.get_thread_count; cbn [Vec.thread_counters Vec.num_threads].
    split; [|split; [|reflexivity]].
    + rewrite (at_index_insert_eq _ _ _ _ Hx). f_equal. apply wrap_succ.
      apply at_index_Some in Hx as [_ Hx]. exact (Forall_lookup_1 _ _ _ _ Hvall Hx).
    + intros j Hj. apply at_index_insert_ne; lia.
  - unfold Arr.MAX_THREADS in *.
    destruct (at_index_lt (Arr.thread_counters ca) ida) as [x Hx]; [lia|].
    exists x. eexists. split; [exact Hx|].
    split; [apply arr_increment_Some, Hx|].
    unfold Arr.get_thread_count; cbn [Arr.thread_counters Arr.num_threads].
    split; [|split; [|reflexivity]].
    + rewrite (at_index_insert_eq _ _ _ _ Hx). f_equal. apply wrap_succ.
      apply at_index_Some in Hx as [_ Hx]. exact (Forall_lookup_1 _ _ _ _ Haall Hx).
    + intros j Hj. apply at_index_insert_ne; lia.
Qed.

End Increment.

Section IncrementExamples.
Import Int.

(** A vector-backed bank of 32 workers, worker 20; an array-backed bank of
    3 workers, worker 1. *)
Lemma increment_slot_effect_witness :
  (exists x cv',
      Vec.get_thread_count 20 (Vec.mk (replicate 32 5) 32) = Some x /\
      Vec.increment 20 (Vec.mk (replicate 32 5) 32) = Some cv' /\
      Vec.get_thread_count 20 cv' =
        Some (if decide (x = INT_MAX) then INT_MIN else x + 1) /\
      (forall j, j <> 20 ->
         Vec.get_thread_count j cv'
           = Vec.get_thread_count j (Vec.mk (replicate 32 5) 32)) /\
      Vec.num_threads cv' = 32) /\
  (exists x ca',
      Arr.get_thread_count 1 (Arr.mk (replicate 16 9) 3) = Some x /\
      Arr.increment 1 (Arr.mk (replicate 16 9) 3) = Some ca' /\
      Arr.get_thread_count 1 ca' =
        Some (if decide (x = INT_MAX) then INT_MIN else x + 1) /\
      (forall j, j <> 1 ->
         Arr.get_thread_count j ca' =
           Arr.get_thread_count j (Arr.mk (replicate 16 9) 3)) /\
      Arr.num_threads ca' = 3).
Proof.
  apply (increment_slot_effect (Vec.mk (replicate 32 5) 32)
           (Arr.mk (replicate 16 9) 3) 20 1).
  - repeat split; simpl; try lia.
    repeat (apply Forall_cons_2; [unfold in_range, INT_MIN, INT_MAX; lia|]);
      apply Forall_nil_2.
  - repeat split; simpl; try (unfold Arr.MAX_THREADS; lia).
    repeat (apply Forall_cons_2; [unfold in_range, INT_MIN, INT_MAX; lia|]);
      apply Forall_nil_2.
  - simpl. lia.
  - simpl. lia.
Defined.

(** C6, as stated, fails at a slot that holds INT_MAX, the state worker 0
    reaches by 2147483647 increments: the next [increment(0)] leaves
    -2147483648 in the slot, not 2147483648. *)
Lemma increment_at_int_max :
  Vec.wf (Vec.mk [2147483647] 1) /\
  Vec.counter_thread 0 2147483647 (Vec.mk [0] 1)
    = Some (Vec.mk [2147483647] 1) /\
  Vec.get_thread_count 0 (Vec.mk [2147483647] 1) = Some 2147483647 /\
  exists c',
    Vec.increment 0 (Vec.mk [2147483647] 1) = Some c' /\
    Vec.get_thread_count 0 c' = Some (-2147483648) /\
    Vec.get_thread_count 0 c' <> Some (2147483647 + 1).
Proof.
  split.
  { repeat split; simpl; try lia. repeat (apply Forall_cons_2; [unfold in_range, INT_MIN, INT_MAX; lia|]);
      apply Forall_nil_2. }
  split.
  { rewrite (vec_counter_thread 0 2147483647 (Vec.mk [0] 1) 0).
    - reflexivity.
    - unfold in_range, INT_MIN, INT_MAX. lia.
    - reflexivity. }
  split; [reflexivity|].
  eexists. split; [reflexivity|]. split; [reflexivity|]. discriminate.
Qed.

End IncrementExamples.

(** ** Construction *)

(** C4. Construction of the array-backed bank leaves by
    [std::invalid_argument] exactly when the requested capacity is above
    MAX_THREADS = 16 and returns a bank exactly when it is at most 16;
    construction of the vector-backed bank never leaves by
    [std::invalid_argument], whatever the capacity. *)
Theorem construct_invalid_configuration :
  (forall cells threads,
      Arr.construct cells threads = Threw invalid_argument <-> threads > 16) /\
  (forall cells threads,
      (exists c, Arr.construct cells threads = Returned c) <-> threads <= 16) /\
  (forall threads, Vec.construct threads <> Threw invalid_argument).
Proof.
  split; [|split].
  - intros cells threads. unfold Arr.construct, Arr.MAX_THREADS.
    destruct (Z.gtb_spec threads 16); split; intros; try lia;
      try reflexivity; discriminate.
  - intros cells threads. unfold Arr.construct, Arr.MAX_THREADS.
    destruct (Z.gtb_spec threads 16); split.
    + intros [c Hc]. discriminate.
    + lia.
    + lia.
    + intros _. eexists. reflexivity.
  - intros threads. unfold Vec.construct.
    destruct (threads <? 0); discriminate.
Qed.

(** ** The two classes are one bank *)

Section Refinement.
Import Int.

Lemma same_bank_at_index C cv ca id :
  same_bank C cv ca -> 0 <= id < C ->
  exists x, at_index (Vec.thread_counters cv) id = Some x /\
            at_index (Arr.thread_counters ca) id = Some x.
Proof.
  intros (_ & _ & Hlen & Htake) Hid.
  destruct (at_index_lt (Vec.thread_counters cv) id) as [x Hx]; [lia|].
  exists x. split; [assumption|].
  apply at_index_Some in Hx as [H0 Hx]. apply at_index_Some. split; [assumption|].
  rewrite <- Htake in Hx. rewrite lookup_take_lt in Hx by lia. assumption.
Qed.

Lemma same_bank_increment C cv ca id :
  same_bank C cv ca -> 0 <= id < C ->
  exists cv' ca',
    Vec.increment id cv = Some cv' /\ Arr.increment id ca = Some ca' /\
    same_bank C cv' ca'.
Proof.
  intros Hs Hid. destruct (same_bank_at_index _ _ _ _ Hs Hid) as (x & Hv & Ha).
  rewrite (vec_increment_Some _ _ _ Hv), (arr_increment_Some _ _ _ Ha).
  do 2 eexists. split; [reflexivity|]. split; [reflexivity|].
  destruct Hs as (Hnv & Hna & Hlen & Htake).
  repeat split; cbn [Vec.thread_counters Vec.num_threads
                     Arr.thread_counters Arr.num_threads]; try assumption.
  - by rewrite length_insert.
  - rewrite take_insert_lt by lia. by rewrite Htake.
Qed.

Lemma same_bank_sum_loop C cv ca n i total :
  same_bank C cv ca ->
  0 <= i -> (Z.to_nat i + n <= Z.to_nat C)%nat ->
  exists r, Vec.sum_loop n i total (Vec.thread_counters cv) = Some r /\
            Arr.sum_loop n i total (Arr.thread_counters ca) = Some r.
Proof.
  intros Hs. revert i total. induction n as [|n IH]; intros i total Hi Hn.
  - exists total. split; reflexivity.
  - destruct (same_bank_at_index C cv ca i Hs) as (x & Hv & Ha); [lia|].
    cbn [Vec.sum_loop Arr.sum_loop]. rewrite Hv, Ha. cbn [mbind option_bind].
    apply IH; lia.
Qed.

Lemma same_bank_total C cv ca :
  same_bank C cv ca -> 0 <= C ->
  exists r, Vec.get_approximate_count cv = Some r /\
            Arr.get_approximate_count ca = Some r.
Proof.
  intros Hs HC. unfold Vec.get_approximate_count, Arr.get_approximate_count.
  pose proof Hs as (Hnv & Hna & _). rewrite Hnv, Hna.
  apply (same_bank_sum_loop C); [exact Hs|lia|lia].
Qed.

Lemma same_bank_run C ops :
  0 <= C -> Forall (op_in_range C) ops ->
  forall cv ca, same_bank C cv ca ->
  exists results, run_vec ops cv = Some results /\ run_arr ops ca = Some results.
Proof.
  intros HC. induction 1 as [|o ops Ho Hops IH]; intros cv ca Hs.
  - exists []. split; reflexivity.
  - destruct o as [id|id|]; cbn [run_vec run_arr op_in_range] in *.
    + destruct (same_bank_increment _ _ _ _ Hs Ho) as (cv' & ca' & -> & -> & Hs').
      cbn [mbind option_bind]. apply IH, Hs'.
    + destruct (same_bank_at_index _ _ _ _ Hs Ho) as (x & Hv & Ha).
      unfold Vec.get_thread_count, Arr.get_thread_count. rewrite Hv, Ha.
      destruct (IH _ _ Hs) as (rs & -> & ->). exists (x :: rs). split; reflexivity.
    + destruct (same_bank_total _ _ _ Hs HC) as (x & -> & ->).
      destruct (IH _ _ Hs) as (rs & -> & ->). exists (x :: rs). split; reflexivity.
Qed.

Lemma same_bank_construct C cells :
  0 <= C <= 16 -> length cells = 16%nat ->
  same_bank C (Vec.mk (replicate (Z.to_nat C) 0) C)
    (Arr.mk (Arr.store_zeros (Z.to_nat C) 0 cells) C).
Proof.
  intros HC Hlen. repeat split; cbn; [by rewrite length_replicate|].
  apply list_eq; intros j. destruct (decide (j < Z.to_nat C)%nat) as [Hlt|Hge].
  - rewrite lookup_take_lt, store_zeros_lookup, lookup_replicate_2 by lia.
    case_decide; [reflexivity|lia].
  - rewrite lookup_take_ge by lia.
    symmetry. apply lookup_replicate_None. lia.
Qed.

(** C2. For every capacity C with 1 <= C <= 16 and every sequence of
    [increment], [get_thread_count] and [get_approximate_count] calls with
    worker ids in [0, C), every read returns the same value on the
    vector-backed bank as on the array-backed bank, whatever the member
    array held before its constructor ran. *)
Theorem variants_agree C cells ops :
  1 <= C <= 16 ->
  length cells = 16%nat ->
  Forall (op_in_range C) ops ->
  exists cv ca results,
    Vec.construct C = Returned cv /\
    Arr.construct cells C = Returned ca /\
    run_vec ops cv = Some results /\
    run_arr ops ca = Some results.
Proof.
  intros HC Hlen Hops.
  destruct (same_bank_run C ops ltac:(lia) Hops _ _
              (same_bank_construct C cells ltac:(lia) Hlen)) as (rs & Hv & Ha).
  do 3 eexists. split; [apply vec_construct_ok; lia|].
  split; [apply arr_construct_ok; unfold Arr.MAX_THREADS; lia|].
  split; eassumption.
Qed.

Lemma variants_agree_witness :
  exists cv ca results,
    Vec.construct 3 = Returned cv /\
    Arr.construct (replicate 16 (-7)) 3 = Returned ca /\
    run_vec [Increment 0; Increment 2; Increment 2; ReadSlot 2; Total;
             Increment 1; ReadSlot 0; Total] cv = Some results /\
    run_arr [Increment 0; Increment 2; Increment 2; ReadSlot 2; Total;
             Increment 1; ReadSlot 0; Total] ca = Some results.
Proof.
  apply variants_agree.
  - lia.
  - reflexivity.
  - repeat (apply Forall_cons_2; [simpl; lia || exact I|]). apply Forall_nil_2.
Defined.

End Refinement.

(** ** The list: running the operations *)

Section ListProperties.
Import LinkedList.

Lemma bind_Done {A B} (m : M A) (f : A -> M B) w a w' :
  m w = Done a w' -> (m ≫= f) w = f a w'.
Proof. intros H. unfold mbind, M_bind, bind. by rewrite H. Qed.

Lemma bind_Raised {A B} (m : M A) (f : A -> M B) w e w' :
  m w = Raised e w' -> (m ≫= f) w = Raised e w'.
Proof. intros H. unfold mbind, M_bind, bind. by rewrite H. Qed.

Lemma load_live a n w : heap w !! a = Some n -> load (Some a) w = Done n w.
Proof. intros H. unfold load. by rewrite H. Qed.

Lemma store_live a n0 n w :
  heap w !! a = Some n0 ->
  store (Some a) n w = Done tt (with_heap (<[a := n]> (heap w)) w).
Proof. intros H. unfold store. by rewrite H. Qed.

Lemma set_key_live a n k w :
  heap w !! a = Some n ->
  set_key (Some a) k w =
    Done tt (with_heap (<[a := mk_node k (next n) (n_lock n)]> (heap w)) w).
Proof.
  intros H. unfold set_key. rewrite (bind_Done _ _ _ _ _ (load_live _ _ _ H)).
  by apply store_live with n.
Qed.

Lemma set_next_live a n q w :
  heap w !! a = Some n ->
  set_next (Some a) q w =
    Done tt (with_heap (<[a := mk_node (key n) q (n_lock n)]> (heap w)) w).
Proof.
  intros H. unfold set_next. rewrite (bind_Done _ _ _ _ _ (load_live _ _ _ H)).
  by apply store_live with n.
Qed.

Lemma lock_free a n w :
  heap w !! a = Some n -> n_lock n = false ->
  lock (Some a) w =
    Done tt (mk_world (<[a := mk_node (key n) (next n) true]> (heap w))
               (self w) (grants w) (trace w ++ [EvLock a])).
Proof.
  intros H Hl. unfold lock. rewrite (bind_Done _ _ _ _ _ (load_live _ _ _ H)).
  rewrite Hl. erewrite bind_Done by (by apply store_live with n). reflexivity.
Qed.

Lemma unlock_held a n w :
  heap w !! a = Some n -> n_lock n = true ->
  unlock (Some a) w =
    Done tt (mk_world (<[a := mk_node (key n) (next n) false]> (heap w))
               (self w) (grants w) (trace w ++ [EvUnlock a])).
Proof.
  intros H Hl. unfold unlock. rewrite (bind_Done _ _ _ _ _ (load_live _ _ _ H)).
  rewrite Hl. erewrite bind_Done by (by apply store_live with n). reflexivity.
Qed.

Lemma new_node_t_granted w :
  granted w = true ->
  new_node_t w =
    Done (Some (fresh (dom (heap w))))
      (mk_world (<[fresh (dom (heap w)) := mk_node 0 None false]> (heap w))
         (self w) (List.tl (grants w)) (trace w)).
Proof.
  unfold granted, new_node_t. destruct (grants w) as [|[] g]; try discriminate;
    reflexivity.
Qed.

Lemma new_node_t_refused w :
  granted w = false ->
  new_node_t w = Raised bad_alloc (with_grants (List.tl (grants w)) w).
Proof.
  unfold granted, new_node_t. destruct (grants w) as [|[] g]; try discriminate;
    reflexivity.
Qed.

Lemma fresh_not_live (h : gmap positive node_t) : h !! fresh (dom h) = None.
Proof. apply not_elem_of_dom, is_fresh. Qed.

Ltac tidy :=
  unfold with_heap, with_self, with_grants;
  cbn [heap self grants trace head tail size key next n_lock];
  rewrite ?insert_insert_eq.

Ltac step tac := erewrite bind_Done by tac; tidy.

Lemma insert_refused k w :
  granted w = false ->
  insert k w = Raised bad_alloc (with_grants (List.tl (grants w)) w).
Proof. intros Hg. unfold insert. apply bind_Raised, new_node_t_refused, Hg. Qed.

(** First insertion, lines 30-33. *)
Lemma insert_first k w :
  granted w = true -> tail (self w) = None ->
  insert k w =
    Done 0 (mk_world (<[fresh (dom (heap w)) := mk_node k None false]> (heap w))
              (mk_List (Some (fresh (dom (heap w)))) (Some (fresh (dom (heap w))))
                 (size (self w)))
              (List.tl (grants w)) (trace w)).
Proof.
  intros Hg Ht. unfold insert.
  rewrite (bind_Done _ _ _ _ _ (new_node_t_granted _ Hg)).
  destruct (decide _) as [|_]; [discriminate|].
  step ltac:(apply set_key_live; apply lookup_insert_eq).
  step ltac:(apply set_next_live; apply lookup_insert_eq).
  step ltac:(reflexivity). rewrite Ht.
  destruct (decide _) as [_|]; [|congruence].
  step ltac:(reflexivity). step ltac:(reflexivity). step ltac:(reflexivity).
  reflexivity.
Qed.

(** Insertion behind a live, unlocked tail, lines 36-42. *)
Lemma insert_after k w t n :
  granted w = true -> tail (self w) = Some t ->
  heap w !! t = Some n -> n_lock n = false ->
  insert k w =
    Done 0 (mk_world
              (<[t := mk_node (key n) (Some (fresh (dom (heap w)))) false]>
                 (<[fresh (dom (heap w)) := mk_node k None false]> (heap w)))
              (mk_List (head (self w)) (Some (fresh (dom (heap w))))
                 (size (self w)))
              (List.tl (grants w))
              (trace w ++ [EvLock t; EvUnlock t])).
Proof.
  intros Hg Ht Hn Hl. unfold insert.
  assert (Hne : fresh (dom (heap w)) <> t).
  { intros <-. by rewrite fresh_not_live in Hn. }
  rewrite (bind_Done _ _ _ _ _ (new_node_t_granted _ Hg)).
  destruct (decide _) as [|_]; [discriminate|].
  step ltac:(apply set_key_live; apply lookup_insert_eq).
  step ltac:(apply set_next_live; apply lookup_insert_eq).
  step ltac:(reflexivity). rewrite Ht.
  destruct (decide _) as [|_]; [discriminate|].
  step ltac:(reflexivity). rewrite Ht.
  step ltac:(apply (lock_free t n); [cbn [heap]; by rewrite lookup_insert_ne|assumption]).
  step ltac:(reflexivity). rewrite Ht.
  step ltac:(apply set_next_live; apply lookup_insert_eq).
  step ltac:(reflexivity). rewrite Ht.
  step ltac:(reflexivity).
  step ltac:(eapply unlock_held; [apply lookup_insert_eq|reflexivity]).
  rewrite <- app_assoc. reflexivity.
Qed.

(** [insert] has no way to return -1: [new_node_t] never yields [nullptr]. *)
Lemma insert_Done_zero k w r w' : insert k w = Done r w' -> r = 0.
Proof.
  unfold insert, mbind, M_bind. unfold bind at 1.
  unfold new_node_t. destruct (grants w) as [|[] g].
  all: try discriminate.
  all: destruct (decide _) as [|_]; [discriminate|].
  all: repeat (unfold bind at 1;
               match goal with
               | |- context [match ?m ?x with Done _ _ => _ | _ => _ end] =>
                   destruct (m x); try discriminate
               end).
  all: try (destruct (decide _)).
  all: repeat (unfold bind at 1;
               match goal with
               | |- context [match ?m ?x with Done _ _ => _ | _ => _ end] =>
                   destruct (m x); try discriminate
               end).
  all: unfold ret; congruence.
Qed.

(** ** The list: shape of the chain *)

Lemma lseg_frame h h' p ls q :
  (forall a, a ∈ ls -> h' !! a = h !! a) ->
  lseg h p ls q -> lseg h' p ls q.
Proof.
  revert p. induction ls as [|a ls IH]; intros p Hsame; cbn [lseg].
  - trivial.
  - intros (-> & n & Hn & Hrest). split; [reflexivity|]. exists n. split.
    + rewrite Hsame; [assumption|]. apply elem_of_cons. by left.
    + apply IH; [|assumption]. intros b Hb. apply Hsame, elem_of_cons. by right.
Qed.

Lemma lseg_app h p l1 l2 q :
  lseg h p (l1 ++ l2) q <-> exists r, lseg h p l1 r /\ lseg h r l2 q.
Proof.
  revert p. induction l1 as [|a l1 IH]; intros p; cbn [lseg app].
  - split.
    + intros H. exists p. by split.
    + intros (r & -> & H). exact H.
  - split.
    + intros (-> & n & Hn & Hrest). apply IH in Hrest as (r & H1 & H2).
      exists r. split; [|assumption]. split; [reflexivity|]. by exists n.
    + intros (r & (-> & n & Hn & H1) & H2). split; [reflexivity|].
      exists n. split; [assumption|]. apply IH. by exists r.
Qed.

Lemma lseg_live h p ls q a : lseg h p ls q -> a ∈ ls -> is_Some (h !! a).
Proof.
  revert p. induction ls as [|b ls IH]; intros p; cbn [lseg].
  - intros _ Hin. by apply elem_of_nil in Hin.
  - intros (-> & n & Hn & Hrest) Hin. apply elem_of_cons in Hin as [->|Hin].
    + by exists n.
    + by apply (IH (next n)).
Qed.

Lemma lseg_head h p a ls q : lseg h p (a :: ls) q -> p = Some a.
Proof. cbn [lseg]. tauto. Qed.

Lemma lseg_reaches h p l t q a :
  lseg h p (l ++ [t]) q -> p = Some a -> reaches h a t.
Proof.
  revert p a. induction l as [|b l IH]; intros p a; cbn [lseg app].
  - intros (-> & n & Hn & _) Ha. injection Ha as <-. by apply reaches_here with n.
  - intros (-> & n & Hn & Hrest) Ha. injection Ha as <-.
    assert (exists c, next n = Some c) as [c Hc].
    { destruct (l ++ [t]) as [|c l'] eqn:Hl.
      - by destruct l.
      - exists c. by apply lseg_head in Hrest. }
    eapply reaches_next; [exact Hn|exact Hc|]. by apply (IH (next n)).
Qed.

Lemma represents_construct g : represents [] (construct g).
Proof.
  exists []. unfold construct. cbn [heap self head tail lseg last].
  repeat split; try constructor; apply dom_empty_L.
Qed.

Lemma keys_frame (h h' : gmap positive node_t) ls ks :
  (forall a, a ∈ ls -> h' !! a = h !! a) ->
  Forall2 (fun a k => exists n, h !! a = Some n /\ key n = k /\ n_lock n = false)
    ls ks ->
  Forall2 (fun a k => exists n, h' !! a = Some n /\ key n = k /\ n_lock n = false)
    ls ks.
Proof.
  intros Hsame Hall. induction Hall as [|a k ls ks (n & Hn & Hk & Hl) _ IH].
  - constructor.
  - constructor.
    + exists n. rewrite Hsame; [by repeat split|]. apply elem_of_cons. by left.
    + apply IH. intros b Hb. apply Hsame, elem_of_cons. by right.
Qed.

Lemma represents_insert ks w k w' :
  represents ks w -> insert k w = Done 0 w' -> represents (ks ++ [k]) w'.
Proof.
  intros (ls & Hseg & Hnd & Htail & Hkeys & Hdom) Hins.
  destruct (granted w) eqn:Hg; [|by rewrite insert_refused in Hins].
  pose proof (fresh_not_live (heap w)) as Hfresh.
  set (a := fresh (dom (heap w))) in *.
  assert (Ha : a ∉ ls).
  { intros Hin. destruct (lseg_live _ _ _ _ _ Hseg Hin) as [n Hn]. congruence. }
  destruct (last ls) as [t|] eqn:Hlast.
  - apply last_Some in Hlast as [l0 ->].
    apply lseg_app in Hseg as (r & Hseg0 & Hlast).
    cbn [lseg] in Hlast. destruct Hlast as (Hr & n & Hn & Hnx).
    apply Forall2_app_inv_l in Hkeys as (ks0 & kt & Hkeys0 & Hkt & ->).
    apply Forall2_cons_inv_l in Hkt as (k0 & kt' & (n' & Hn' & Hk0 & Hl) & Hnil & ->).
    apply Forall2_nil_inv_l in Hnil as ->.
    rewrite Hn in Hn'. injection Hn' as <-.
    rewrite (insert_after k w t n Hg Htail Hn Hl) in Hins. injection Hins as <-.
    fold a.
    apply NoDup_app in Hnd as (Hnd0 & Hdisj & _).
    assert (Hat : a <> t).
    { intros Heq. apply Ha. rewrite Heq. apply elem_of_app. right.
      by apply list_elem_of_singleton. }
    assert (Hl0 : forall b, b ∈ l0 ->
              <[t := mk_node (key n) (Some a) false]>
                (<[a := mk_node k None false]> (heap w)) !! b = heap w !! b).
    { intros b Hb. rewrite !lookup_insert_ne; [reflexivity| |].
      - intros Heq. apply Ha. rewrite Heq. apply elem_of_app. by left.
      - intros Heq. apply (Hdisj t); [by rewrite Heq|].
        by apply list_elem_of_singleton. }
    exists ((l0 ++ [t]) ++ [a]). cbn [heap self head tail].
    split; [|split; [|split; [|split]]].
    + apply lseg_app. exists (Some a). split.
      * apply lseg_app. exists (Some t). split.
        -- rewrite Hr in Hseg0. eapply lseg_frame; [exact Hl0|exact Hseg0].
        -- cbn [lseg]. split; [reflexivity|]. eexists. split.
           ++ apply lookup_insert_eq.
           ++ reflexivity.
      * cbn [lseg]. split; [reflexivity|]. eexists. split.
        -- rewrite lookup_insert_ne by done. apply lookup_insert_eq.
        -- reflexivity.
    + apply NoDup_app. split; [|split].
      * apply NoDup_app. repeat split; try assumption. apply NoDup_singleton.
      * intros b Hb Hba. apply list_elem_of_singleton in Hba as ->. by apply Ha.
      * apply NoDup_singleton.
    + by rewrite last_snoc.
    + apply Forall2_app; [apply Forall2_app|].
      * eapply keys_frame; [exact Hl0|exact Hkeys0].
      * constructor; [|constructor]. eexists. split; [apply lookup_insert_eq|].
        by split.
      * constructor; [|constructor]. eexists. split.
        -- rewrite lookup_insert_ne by done. apply lookup_insert_eq.
        -- by split.
    + rewrite !dom_insert_L, Hdom. apply set_eq. intros x.
      rewrite !elem_of_union, !elem_of_list_to_set, !elem_of_app,
        !list_elem_of_singleton, !elem_of_singleton. tauto.
  - apply last_None in Hlast as ->. cbn [lseg last] in *.
    apply Forall2_nil_inv_l in Hkeys as ->.
    rewrite (insert_first k w Hg Htail) in Hins. injection Hins as <-. fold a.
    exists [a]. cbn [heap self head tail app].
    split; [|split; [|split; [|split]]].
    + cbn [lseg]. split; [reflexivity|]. eexists. split; [apply lookup_insert_eq|].
      reflexivity.
    + apply NoDup_singleton.
    + reflexivity.
    + constructor; [|constructor]. eexists. split; [apply lookup_insert_eq|].
      by split.
    + rewrite dom_insert_L, Hdom. apply set_eq. intros x.
      rewrite !elem_of_union, !elem_of_list_to_set, list_elem_of_singleton,
        !elem_of_singleton, elem_of_nil. tauto.
Qed.

Lemma represents_insert_raised ks w k e w' :
  represents ks w -> insert k w = Raised e w' -> represents ks w'.
Proof.
  intros Hrep Hins. destruct (granted w) eqn:Hg.
  - destruct Hrep as (ls & Hseg & Hnd & Htail & Hkeys & Hdom).
    destruct (last ls) as [t|] eqn:Hlast.
    + apply last_Some in Hlast as [l0 ->].
      apply Forall2_app_inv_l in Hkeys as (ks0 & kt & Hkeys0 & Hkt & ->).
      apply Forall2_cons_inv_l in Hkt as (k0 & kt' & (n' & Hn' & Hk0 & Hl) & _).
      by rewrite (insert_after k w t n' Hg Htail Hn' Hl) in Hins.
    + by rewrite (insert_first k w Hg Htail) in Hins.
  - rewrite (insert_refused k w Hg) in Hins. injection Hins as _ <-. exact Hrep.
Qed.

(** ** The list: traversal *)

Lemma printed_visits ls ks : length ls = length ks -> printed (visits ls ks) = ks.
Proof.
  revert ks. induction ls as [|a ls IH]; intros [|k ks] Hlen; try discriminate.
  - reflexivity.
  - cbn. f_equal. apply IH. by injection Hlen.
Qed.

Lemma world_eta w : mk_world (heap w) (self w) (grants w) (trace w) = w.
Proof. by destruct w. Qed.

(** The loop of [traverse] on a chain of unlocked nodes: with budget for
    every node it prints the keys in chain order and leaves memory as it
    was; with less it does not finish. *)
Lemma traverse_loop_chain ls : forall ks p w fuel,
  lseg (heap w) p ls None ->
  Forall2 (fun a k => exists n, heap w !! a = Some n /\ key n = k /\
                                n_lock n = false) ls ks ->
  traverse_loop fuel p w =
    if decide (length ls <= fuel)%nat
    then Done tt (mk_world (heap w) (self w) (grants w)
                    (trace w ++ visits ls ks))
    else Unfinished.
Proof.
  induction ls as [|a ls IH]; intros ks p w fuel Hseg Hkeys.
  - cbn [lseg] in Hseg. subst p. apply Forall2_nil_inv_l in Hkeys as ->.
    cbn [length visits]. rewrite app_nil_r, world_eta.
    destruct fuel; (case_decide; [reflexivity|lia]).
  - cbn [lseg] in Hseg. destruct Hseg as (-> & n & Hn & Hrest).
    apply Forall2_cons_inv_l in Hkeys
      as (k & ks' & (n' & Hn' & Hk & Hl) & Hkeys & ->).
    rewrite Hn in Hn'. injection Hn' as <-.
    destruct fuel as [|fuel]; cbn [traverse_loop length].
    + destruct (decide _) as [|_]; [discriminate|]. case_decide; [lia|reflexivity].
    + destruct (decide _) as [|_]; [discriminate|].
      step ltac:(apply (lock_free a n); assumption).
      unfold get_key.
      step ltac:(erewrite bind_Done by (apply load_live, lookup_insert_eq);
                 reflexivity).
      step ltac:(reflexivity).
      step ltac:(eapply unlock_held; [apply lookup_insert_eq|reflexivity]).
      unfold get_next.
      step ltac:(erewrite bind_Done by (apply load_live, lookup_insert_eq);
                 reflexivity).
      assert (Hback : <[a := mk_node (key n) (next n) false]> (heap w) = heap w).
      { apply insert_id. rewrite Hn. f_equal. destruct n. cbn in *. by subst. }
      rewrite Hback. subst k.
      rewrite (IH ks' (next n)
                 (mk_world (heap w) (self w) (grants w)
                    (((trace w ++ [EvLock a]) ++ [EvPrint (key n)]) ++ [EvUnlock a])));
        cbn [heap self grants trace]; try assumption.
      * repeat case_decide; try lia; [|reflexivity].
        cbn [visits]. rewrite <- !app_assoc. reflexivity.
Qed.

Lemma traverse_represents ks w fuel :
  represents ks w ->
  exists ls,
    length ls = length ks /\
    traverse fuel w =
      if decide (length ls <= fuel)%nat
      then Done tt (mk_world (heap w) (self w) (grants w)
                      (trace w ++ visits ls ks))
      else Unfinished.
Proof.
  intros (ls & Hseg & _ & _ & Hkeys & _). exists ls.
  split; [by eapply Forall2_length|].
  unfold traverse. step ltac:(reflexivity).
  by apply traverse_loop_chain.
Qed.

Lemma represents_same_memory ks w w' :
  heap w' = heap w -> self w' = self w -> represents ks w -> represents ks w'.
Proof. intros Hh Hs. unfold represents. by rewrite Hh, Hs. Qed.

Lemma represents_traverse ks w fuel w' :
  represents ks w -> traverse fuel w = Done tt w' -> represents ks w'.
Proof.
  intros Hrep Htr. destruct (traverse_represents ks w fuel Hrep) as (ls & _ & Heq).
  rewrite Heq in Htr. case_decide; [|discriminate]. injection Htr as <-.
  by apply (represents_same_memory ks w).
Qed.

Lemma history_represents ks w : history ks w -> represents ks w.
Proof.
  induction 1 as [g|ks w k w' _ IH Hins|ks w k e w' _ IH Hins|ks w fuel w' _ IH Htr].
  - apply represents_construct.
  - by apply (represents_insert ks w k).
  - by apply (represents_insert_raised ks w k e).
  - by apply (represents_traverse ks w fuel).
Qed.

Lemma appends_history ks : forall ks0 w0 w,
  history ks0 w0 -> appends ks w0 = Done tt w -> history (ks0 ++ ks) w.
Proof.
  induction ks as [|k ks IH]; intros ks0 w0 w Hh Happ; cbn [appends] in Happ.
  - injection Happ as <-. by rewrite app_nil_r.
  - unfold mbind, M_bind, bind in Happ.
    destruct (insert k w0) as [r w1| | |] eqn:Hins; try discriminate.
    pose proof (insert_Done_zero _ _ _ _ Hins) as ->.
    rewrite (cons_middle k ks0 ks), app_assoc. apply (IH _ w1); [|assumption].
    by apply (hist_insert ks0 w0 k).
Qed.

Lemma history_main_list : history [5; 6] main_list.
Proof.
  apply (appends_history [5; 6] [] (construct [])); [apply hist_construct|].
  vm_compute. reflexivity.
Qed.

(** C3. After any sequence of appends (and traversals) with no concurrent
    call, a traversal that is given budget for every node returns and has
    printed exactly the keys of the appends that returned, oldest first. *)
Theorem traverse_visits_appended ks w fuel :
  history ks w ->
  (length ks <= fuel)%nat ->
  exists w' evs,
    traverse fuel w = Done tt w' /\
    trace w' = trace w ++ evs /\
    printed evs = ks /\
    heap w' = heap w.
Proof.
  intros Hh Hfuel. apply history_represents in Hh.
  destruct (traverse_represents ks w fuel Hh) as (ls & Hlen & ->).
  case_decide; [|lia]. do 2 eexists. split; [reflexivity|]. cbn [trace heap].
  split; [reflexivity|]. split; [by apply printed_visits|reflexivity].
Qed.

Lemma traverse_visits_appended_witness :
  exists w' evs,
    traverse 2 main_list = Done tt w' /\
    trace w' = trace main_list ++ evs /\
    printed evs = [5; 6] /\
    heap w' = heap main_list.
Proof.
  apply (traverse_visits_appended [5; 6] main_list 2).
  - exact history_main_list.
  - simpl. lia.
Defined.

(** The program of lines 68-75 prints 5, then 6, and returns 0. *)
Lemma main_prints_5_6 :
  exists w, main 2 = Done 0 w /\ printed (trace w) = [5; 6].
Proof. eexists. split; vm_compute; reflexivity. Qed.

(** ** The list: head and tail *)

(** C10. In every state reached from construction by appends, [head] is
    null exactly when [tail] is, and when both are set the tail node is
    reached from the head node along [next] links and its own [next] is
    null. *)
Theorem head_tail_invariant ks w :
  history ks w ->
  (head (self w) = None <-> tail (self w) = None) /\
  (forall h t,
      head (self w) = Some h -> tail (self w) = Some t ->
      reaches (heap w) h t /\
      exists n, heap w !! t = Some n /\ next n = None).
Proof.
  intros Hh. apply history_represents in Hh
    as (ls & Hseg & _ & Htail & _ & _).
  destruct (last ls) as [t|] eqn:Hlast.
  - apply last_Some in Hlast as [l0 ->]. split.
    + split; [|by rewrite Htail].
      intros Hnone. rewrite Hnone in Hseg.
      destruct l0; cbn [lseg app] in Hseg; destruct Hseg as [? _]; discriminate.
    + intros h t' Hh Ht'. rewrite Htail in Ht'. injection Ht' as <-. split.
      * by apply (lseg_reaches _ _ l0 t None h) in Hseg.
      * apply lseg_app in Hseg as (r & _ & Hend). cbn [lseg] in Hend.
        destruct Hend as (_ & n & Hn & Hnx). by exists n.
  - apply last_None in Hlast as ->. cbn [lseg] in Hseg. split.
    + by rewrite Hseg, Htail.
    + intros h t Hh. congruence.
Qed.

Lemma head_tail_invariant_witness :
  (head (self main_list) = None <-> tail (self main_list) = None) /\
  (forall h t,
      head (self main_list) = Some h -> tail (self main_list) = Some t ->
      reaches (heap main_list) h t /\
      exists n, heap main_list !! t = Some n /\ next n = None).
Proof. exact (head_tail_invariant [5; 6] main_list history_main_list). Defined.

(** ** The list: appending *)

(** C7. When [insert] is called on a list without a tail and the node is
    allocated, the call returns 0, the new node (not live before, now
    holding the key, with a null [next]) is both head and tail, every node
    that was live is untouched, and the call acquires no lock: it adds no
    event at all to the trace, which records every acquisition. *)
Theorem insert_into_empty k w :
  tail (self w) = None ->
  granted w = true ->
  exists a w',
    insert k w = Done 0 w' /\
    heap w !! a = None /\
    heap w' !! a = Some (mk_node k None false) /\
    head (self w') = Some a /\
    tail (self w') = Some a /\
    (forall b n, heap w !! b = Some n -> heap w' !! b = Some n) /\
    trace w' = trace w /\
    forallb (fun e => negb (is_lock e)) (drop (length (trace w)) (trace w'))
      = true.
Proof.
  intros Ht Hg. exists (fresh (dom (heap w))). eexists.
  split; [by apply insert_first|]. cbn [heap self head tail trace].
  split; [apply fresh_not_live|].
  split; [apply lookup_insert_eq|].
  do 2 (split; [reflexivity|]).
  split; [|split; [reflexivity|]].
  - intros b n Hb. rewrite lookup_insert_ne; [assumption|].
    intros <-. by rewrite fresh_not_live in Hb.
  - by rewrite drop_all.
Qed.

Lemma insert_into_empty_witness :
  exists a w',
    insert 5 (construct []) = Done 0 w' /\
    heap (construct []) !! a = None /\
    heap w' !! a = Some (mk_node 5 None false) /\
    head (self w') = Some a /\
    tail (self w') = Some a /\
    (forall b n, heap (construct []) !! b = Some n -> heap w' !! b = Some n) /\
    trace w' = trace (construct []) /\
    forallb (fun e => negb (is_lock e))
      (drop (length (trace (construct []))) (trace w')) = true.
Proof. apply (insert_into_empty 5 (construct [])); reflexivity. Defined.

(** By contrast, an append behind an existing tail does take its lock. *)
Lemma insert_after_locks_tail :
  insert 5 (construct []) = Done 0 (world_after (insert 5) (construct [])) /\
  insert 6 (world_after (insert 5) (construct [])) = Done 0 main_list /\
  trace main_list = [EvLock 1%positive; EvUnlock 1%positive].
Proof.
  split; [vm_compute; reflexivity|].
  split; vm_compute; reflexivity.
Qed.

(** C5 fails on the code. [new node_t] reports a failed allocation by
    throwing: the request that cannot be satisfied makes [insert] leave by
    [std::bad_alloc], with the list as it was, and in no state of the world
    does [insert] return -1. *)
Theorem insert_allocation_failure :
  insert 5 (construct [false]) = Raised bad_alloc (construct []) /\
  (forall k w, granted w = false ->
               insert k w = Raised bad_alloc (with_grants (List.tl (grants w)) w)) /\
  (forall k w w', insert k w <> Done (-1) w').
Proof.
  split; [reflexivity|]. split.
  - intros k w. apply insert_refused.
  - intros k w w' H. apply insert_Done_zero in H. discriminate.
Qed.

(** ** The list: nodes are written once *)

Lemma list_step_frame ks w w' :
  represents ks w -> list_step w w' ->
  (exists ks', represents ks' w') /\
  forall a n, heap w !! a = Some n ->
    exists n', heap w' !! a = Some n' /\ key n' = key n /\
               forall b, next n = Some b -> next n' = Some b.
Proof.
  intros Hrep [(k & r & Hins)|[(k & e & Hins)|(fuel & Htr)]].
  - pose proof (insert_Done_zero _ _ _ _ Hins) as ->.
    split; [exists (ks ++ [k]); by apply (represents_insert ks w k)|].
    destruct Hrep as (ls & Hseg & Hnd & Htail & Hkeys & Hdom).
    destruct (granted w) eqn:Hg; [|by rewrite insert_refused in Hins].
    pose proof (fresh_not_live (heap w)) as Hfresh.
    destruct (last ls) as [t|] eqn:Hlast.
    + apply last_Some in Hlast as [l0 ->].
      apply lseg_app in Hseg as (r & _ & Hend). cbn [lseg] in Hend.
      destruct Hend as (_ & nt & Hnt & Hnx).
      apply Forall2_app_inv_l in Hkeys as (ks0 & kt & _ & Hkt & ->).
      apply Forall2_cons_inv_l in Hkt as (k0 & kt' & (n' & Hn' & _ & Hl) & _).
      rewrite Hnt in Hn'. injection Hn' as <-.
      rewrite (insert_after k w t nt Hg Htail Hnt Hl) in Hins.
      injection Hins as <-. cbn [heap]. intros a n Ha.
      destruct (decide (a = t)) as [->|Hne].
      * rewrite Hnt in Ha. injection Ha as <-. eexists.
        split; [apply lookup_insert_eq|]. split; [reflexivity|].
        intros b Hb. congruence.
      * exists n. rewrite !lookup_insert_ne; [by repeat split| |done].
        intros Heq. rewrite <- Heq in Ha. congruence.
    + rewrite (insert_first k w Hg Htail) in Hins. injection Hins as <-.
      cbn [heap]. intros a n Ha. exists n. rewrite lookup_insert_ne; [by repeat split|].
      intros Heq. rewrite <- Heq in Ha. congruence.
  - split; [exists ks; by apply (represents_insert_raised ks w k e)|].
    destruct (granted w) eqn:Hg.
    + destruct Hrep as (ls & Hseg & Hnd & Htail & Hkeys & Hdom).
      destruct (last ls) as [t|] eqn:Hlast.
      * apply last_Some in Hlast as [l0 ->].
        apply Forall2_app_inv_l in Hkeys as (ks0 & kt & _ & Hkt & ->).
        apply Forall2_cons_inv_l in Hkt as (k0 & kt' & (n' & Hn' & _ & Hl) & _).
        by rewrite (insert_after k w t n' Hg Htail Hn' Hl) in Hins.
      * by rewrite (insert_first k w Hg Htail) in Hins.
    + rewrite (insert_refused k w Hg) in Hins. injection Hins as _ <-.
      intros a n Ha. exists n. by repeat split.
  - split; [exists ks; by apply (represents_traverse ks w fuel)|].
    destruct (traverse_represents ks w fuel Hrep) as (ls & _ & Heq).
    rewrite Heq in Htr. case_decide; [|discriminate]. injection Htr as <-.
    intros a n Ha. exists n. by repeat split.
Qed.

(** C8. From any state reached by appends and traversals, through any
    further sequence of appends and traversals, every live node stays
    live and keeps its key, and a [next] link that points to a successor
    keeps pointing to that successor (it is never changed and never set
    back to null). *)
Theorem next_links_set_once ks w w' a n :
  history ks w ->
  rtc list_step w w' ->
  heap w !! a = Some n ->
  exists n', heap w' !! a = Some n' /\ key n' = key n /\
             forall b, next n = Some b -> next n' = Some b.
Proof.
  intros Hh Hsteps. apply history_represents in Hh. revert ks Hh a n.
  induction Hsteps as [w|w w1 w' Hstep _ IH]; intros ks Hrep a n Ha.
  - exists n. by repeat split.
  - destruct (list_step_frame ks w w1 Hrep Hstep) as ((ks1 & Hrep1) & Hframe).
    destruct (Hframe a n Ha) as (n1 & Ha1 & Hk1 & Hnx1).
    destruct (IH ks1 Hrep1 a n1 Ha1) as (n' & Ha' & Hk' & Hnx').
    exists n'. split; [assumption|]. split; [congruence|].
    intros b Hb. apply Hnx', Hnx1, Hb.
Qed.

Lemma next_links_set_once_witness :
  exists n',
    heap (world_after (traverse 3) (world_after (insert 7) main_list))
      !! 1%positive = Some n' /\
    key n' = key (mk_node 5 (Some 2%positive) false) /\
    forall b, next (mk_node 5 (Some 2%positive) false) = Some b ->
              next n' = Some b.
Proof.
  apply (next_links_set_once [5; 6] main_list
           (world_after (traverse 3) (world_after (insert 7) main_list))
           1%positive (mk_node 5 (Some 2%positive) false)).
  - exact history_main_list.
  - apply (rtc_l _ _ (world_after (insert 7) main_list)).
    + left. exists 7, 0. vm_compute. reflexivity.
    + apply rtc_once. right. right. exists 3%nat. vm_compute. reflexivity.
  - vm_compute. reflexivity.
Defined.

(** ** The list: the size member *)

Lemma ignores_ret {A} (a : A) : ignores_size (ret a).
Proof. intros v w. reflexivity. Qed.

Lemma ignores_bind {A B} (m : M A) (f : A -> M B) :
  ignores_size m -> (forall a, ignores_size (f a)) -> ignores_size (m ≫= f).
Proof.
  intros Hm Hf v w. unfold mbind, M_bind, bind. rewrite Hm.
  destruct (m w) as [a w1|e w1| |]; cbn [result_map]; try reflexivity.
  apply Hf.
Qed.

Lemma ignores_fault {A} : ignores_size (@fault A).
Proof. intros v w. reflexivity. Qed.

Lemma ignores_unfinished {A} : ignores_size (@unfinished A).
Proof. intros v w. reflexivity. Qed.

Lemma ignores_emit e : ignores_size (emit e).
Proof. intros v w. reflexivity. Qed.

Lemma ignores_new_node_t : ignores_size new_node_t.
Proof.
  intros v w. unfold new_node_t, with_size, with_self, with_heap, with_grants.
  cbn [heap self grants trace]. destruct (grants w) as [|[] g]; reflexivity.
Qed.

Lemma ignores_load p : ignores_size (load p).
Proof.
  intros v w. unfold load. destruct p as [a|]; [|reflexivity].
  cbn [with_size with_self heap]. destruct (heap w !! a); reflexivity.
Qed.

Lemma ignores_store p n : ignores_size (store p n).
Proof.
  intros v w. unfold store. destruct p as [a|]; [|reflexivity].
  cbn [with_size with_self heap]. destruct (heap w !! a); reflexivity.
Qed.

Lemma ignores_get_head : ignores_size get_head.
Proof. intros v w. reflexivity. Qed.

Lemma ignores_get_tail : ignores_size get_tail.
Proof. intros v w. reflexivity. Qed.

Lemma ignores_set_head p : ignores_size (set_head p).
Proof. intros v w. reflexivity. Qed.

Lemma ignores_set_tail p : ignores_size (set_tail p).
Proof. intros v w. reflexivity. Qed.

Lemma ignores_delete_node p : ignores_size (delete_node p).
Proof.
  unfold delete_node. apply ignores_bind; [apply ignores_load|].
  intros n. destruct (n_lock n); [apply ignores_fault|].
  intros v w. by destruct p.
Qed.

Ltac ignores :=
  repeat first
    [ apply ignores_ret | apply ignores_fault | apply ignores_unfinished
    | apply ignores_emit | apply ignores_new_node_t | apply ignores_load
    | apply ignores_store | apply ignores_get_head | apply ignores_get_tail
    | apply ignores_set_head | apply ignores_set_tail
    | apply ignores_delete_node
    | apply ignores_bind; [|intros ?]
    | match goal with
      | |- ignores_size (if ?b then _ else _) => destruct b
      | |- ignores_size (match ?p with Some _ => _ | None => _ end) =>
          destruct p
      end ].

Lemma ignores_lock p : ignores_size (lock p).
Proof. unfold lock. ignores. Qed.

Lemma ignores_unlock p : ignores_size (unlock p).
Proof. unfold unlock. ignores. Qed.

Lemma ignores_insert k : ignores_size (insert k).
Proof.
  unfold insert, set_key, set_next.
  ignores; first [apply ignores_lock | apply ignores_unlock].
Qed.

Lemma ignores_traverse_loop fuel : forall p, ignores_size (traverse_loop fuel p).
Proof.
  induction fuel as [|fuel IH]; intros p; cbn [traverse_loop].
  - ignores.
  - unfold get_key, get_next. ignores;
      first [apply ignores_lock | apply ignores_unlock | apply IH].
Qed.

Lemma ignores_traverse fuel : ignores_size (traverse fuel).
Proof. unfold traverse. ignores. apply ignores_traverse_loop. Qed.

Lemma ignores_destroy fuel : ignores_size (destroy fuel).
Proof.
  induction fuel as [|fuel IH]; cbn [destroy].
  - ignores.
  - unfold get_next. ignores. apply IH.
Qed.

Lemma ignores_appends ks : ignores_size (appends ks).
Proof.
  induction ks as [|k ks IH]; cbn [appends].
  - ignores.
  - apply ignores_bind; [apply ignores_insert|intros _; apply IH].
Qed.

Lemma with_size_id w : with_size (size (self w)) w = w.
Proof. by destruct w as [h [hd tl sz] g t]. Qed.

(** A call that ignores [size] leaves it as it found it. *)
Lemma ignores_size_keeps {A} (m : M A) w :
  ignores_size m -> size (self (world_after m w)) = size (self w).
Proof.
  intros Hm. unfold world_after. specialize (Hm (size (self w)) w).
  rewrite with_size_id in Hm.
  destruct (m w) as [a w1|e w1| |]; cbn [result_map] in Hm; try reflexivity.
  - injection Hm as Hm. by rewrite Hm.
  - injection Hm as Hm. by rewrite Hm.
Qed.

Lemma history_size ks w : history ks w -> size (self w) = 1000.
Proof.
  induction 1 as [g|ks w k w' _ IH Hins|ks w k e w' _ IH Hins|ks w fuel w' _ IH Htr].
  - reflexivity.
  - pose proof (ignores_size_keeps (insert k) w (ignores_insert k)) as Hk.
    unfold world_after in Hk. rewrite Hins in Hk. congruence.
  - pose proof (ignores_size_keeps (insert k) w (ignores_insert k)) as Hk.
    unfold world_after in Hk. rewrite Hins in Hk. congruence.
  - pose proof (ignores_size_keeps (traverse fuel) w (ignores_traverse fuel)) as Hk.
    unfold world_after in Hk. rewrite Htr in Hk. congruence.
Qed.

Lemma represents_node_count ks w :
  represents ks w -> base.size (heap w) = length ks.
Proof.
  intros (ls & _ & Hnd & _ & Hkeys & Hdom).
  rewrite <- (Forall2_length _ _ _ Hkeys), <- size_dom, Hdom.
  by apply size_list_to_set.
Qed.

(** With a store that grants every request, every append returns. *)
Lemma insert_granted_returns ks0 w k :
  represents ks0 w -> granted w = true ->
  exists w', insert k w = Done 0 w' /\ grants w' = List.tl (grants w).
Proof.
  intros (ls & Hseg & Hnd & Htail & Hkeys & Hdom) Hg.
  destruct (last ls) as [t|] eqn:Hlast.
  - apply last_Some in Hlast as [l0 ->].
    apply Forall2_app_inv_l in Hkeys as (ks1 & kt & _ & Hkt & ->).
    apply Forall2_cons_inv_l in Hkt as (k0 & kt' & (n' & Hn' & _ & Hl) & _).
    rewrite (insert_after k w t n' Hg Htail Hn' Hl). by eexists.
  - rewrite (insert_first k w Hg Htail). by eexists.
Qed.

Lemma appends_all_granted ks : forall ks0 w,
  history ks0 w -> grants w = [] ->
  exists w', appends ks w = Done tt w' /\ history (ks0 ++ ks) w'.
Proof.
  induction ks as [|k ks IH]; intros ks0 w Hh Hg; cbn [appends].
  - exists w. split; [reflexivity|]. by rewrite app_nil_r.
  - destruct (insert_granted_returns ks0 w k) as (w1 & Hins & Hg1).
    + by apply history_represents.
    + unfold granted. by rewrite Hg.
    + rewrite Hg in Hg1. cbn in Hg1.
      destruct (IH (ks0 ++ [k]) w1) as (w' & Happ & Hh').
      * by apply (hist_insert ks0 w k).
      * assumption.
      * exists w'. rewrite (bind_Done _ _ _ _ _ Hins).
        split; [assumption|]. by rewrite (cons_middle k ks0 ks), app_assoc.
Qed.

(** C9. [size] is 1000 after construction; [insert], [traverse] and the
    destructor run the same way whatever [size] holds and leave it as it is;
    so after any number of appends [size] is still 1000, while the number of
    live nodes is the number of appends. *)
Theorem size_member_inert :
  (forall g, size (self (construct g)) = 1000) /\
  (forall k, ignores_size (insert k)) /\
  (forall fuel, ignores_size (traverse fuel)) /\
  (forall fuel, ignores_size (destroy fuel)) /\
  (forall ks,
      size (self (world_after (appends ks) (construct []))) = 1000 /\
      base.size (heap (world_after (appends ks) (construct []))) = length ks).
Proof.
  split; [reflexivity|].
  split; [exact ignores_insert|].
  split; [exact ignores_traverse|].
  split; [exact ignores_destroy|].
  intros ks. split.
  - by rewrite (ignores_size_keeps _ _ (ignores_appends ks)).
  - destruct (appends_all_granted ks [] (construct [])) as (w' & Happ & Hh).
    + apply hist_construct.
    + reflexivity.
    + unfold world_after. rewrite Happ.
      apply (represents_node_count ks), history_represents, Hh.
Qed.

(** ** The list: appending behind a tail *)

(** What [insert] does in a state that holds the keys [ks]. *)
Lemma insert_cases ks w k :
  represents ks w ->
  (granted w = false /\
   insert k w = Raised bad_alloc (with_grants (List.tl (grants w)) w)) \/
  (granted w = true /\ tail (self w) = None /\ ks = [] /\
   insert k w =
     Done 0 (mk_world
               (<[fresh (dom (heap w)) := mk_node k None false]> (heap w))
               (mk_List (Some (fresh (dom (heap w))))
                  (Some (fresh (dom (heap w)))) (size (self w)))
               (List.tl (grants w)) (trace w))) \/
  (exists t n,
      granted w = true /\ tail (self w) = Some t /\
      heap w !! t = Some n /\ next n = None /\ n_lock n = false /\
      insert k w =
        Done 0 (mk_world
                  (<[t := mk_node (key n) (Some (fresh (dom (heap w)))) false]>
                     (<[fresh (dom (heap w)) := mk_node k None false]> (heap w)))
                  (mk_List (head (self w)) (Some (fresh (dom (heap w))))
                     (size (self w)))
                  (List.tl (grants w))
                  (trace w ++ [EvLock t; EvUnlock t]))).
Proof.
  intros (ls & Hseg & Hnd & Htail & Hkeys & Hdom).
  destruct (granted w) eqn:Hg; [|left; split; [reflexivity|by apply insert_refused]].
  right. destruct (last ls) as [t|] eqn:Hlast.
  - right. apply last_Some in Hlast as [l0 ->].
    apply lseg_app in Hseg as (r & _ & Hend). cbn [lseg] in Hend.
    destruct Hend as (_ & n & Hn & Hnx).
    apply Forall2_app_inv_l in Hkeys as (ks0 & kt & _ & Hkt & ->).
    apply Forall2_cons_inv_l in Hkt as (k0 & kt' & (n' & Hn' & _ & Hl) & _).
    rewrite Hn in Hn'. injection Hn' as <-.
    exists t, n. repeat (split; [assumption || reflexivity|]).
    by apply insert_after.
  - left. apply last_None in Hlast as ->.
    apply Forall2_nil_inv_l in Hkeys as ->.
    repeat (split; [assumption || reflexivity|]). by apply insert_first.
Qed.

(** X11. On a reachable list with a tail, when the node is allocated,
    [insert] returns 0; the new node was not live, holds the key and a null
    [next], and is the new tail; the old tail keeps its key and gets the new
    node as [next]; [head] and [size] stay; and the mutex traffic of the
    call is: lock the old tail, unlock the old tail. *)
Theorem insert_behind_tail ks w k t :
  history ks w ->
  tail (self w) = Some t ->
  granted w = true ->
  exists a n w',
    insert k w = Done 0 w' /\
    heap w !! a = None /\
    heap w !! t = Some n /\ next n = None /\
    heap w' = <[t := mk_node (key n) (Some a) false]>
                (<[a := mk_node k None false]> (heap w)) /\
    self w' = mk_List (head (self w)) (Some a) (size (self w)) /\
    trace w' = trace w ++ [EvLock t; EvUnlock t].
Proof.
  intros Hh Ht Hg. apply history_represents in Hh.
  destruct (insert_cases ks w k Hh)
    as [(Hg' & _)|[(_ & Ht' & _)|(t' & n & _ & Ht' & Hn & Hnx & _ & Hins)]];
    try congruence.
  rewrite Ht in Ht'. injection Ht' as <-.
  exists (fresh (dom (heap w))), n. eexists. split; [exact Hins|].
  split; [apply fresh_not_live|]. by repeat split.
Qed.

Lemma insert_behind_tail_witness :
  exists a n w',
    insert 7 main_list = Done 0 w' /\
    heap main_list !! a = None /\
    heap main_list !! 2%positive = Some n /\ next n = None /\
    heap w' = <[2%positive := mk_node (key n) (Some a) false]>
                (<[a := mk_node 7 None false]> (heap main_list)) /\
    self w' = mk_List (head (self main_list)) (Some a) (size (self main_list)) /\
    trace w' = trace main_list ++ [EvLock 2%positive; EvUnlock 2%positive].
Proof.
  apply (insert_behind_tail [5; 6] main_list 7 2%positive).
  - exact history_main_list.
  - vm_compute. reflexivity.
  - vm_compute. reflexivity.
Defined.

(** ** The list: the locking protocol *)

Lemma discipline_app t1 t2 held :
  discipline held t1 = true ->
  discipline held (t1 ++ t2) = discipline None t2.
Proof.
  revert held. induction t1 as [|e t1 IH]; intros held H; cbn [app discipline] in *.
  - by destruct held.
  - destruct e as [a|a|k], held as [b|]; try discriminate.
    + by apply IH.
    + destruct (decide (a = b)); [by apply IH|discriminate].
    + by apply IH.
Qed.

Lemma discipline_visits ls ks : discipline None (visits ls ks) = true.
Proof.
  revert ks. induction ls as [|a ls IH]; intros [|k ks]; try reflexivity.
  cbn [visits discipline]. destruct (decide (a = a)); [apply IH|congruence].
Qed.

(** X10. In every state reached by appends and traversals the trace obeys
    the locking protocol: no mutex is acquired while another is held, every
    release is of the mutex held, every key is printed under a held mutex,
    and no mutex is held once the calls have returned. *)
Theorem history_discipline ks w :
  history ks w -> discipline None (trace w) = true.
Proof.
  induction 1 as [g|ks w k w' Hh IH Hins|ks w k e w' Hh IH Hins|ks w fuel w' Hh IH Htr].
  - reflexivity.
  - apply history_represents in Hh.
    destruct (insert_cases ks w k Hh)
      as [(_ & Heq)|[(_ & _ & _ & Heq)|(t & n & _ & _ & _ & _ & _ & Heq)]];
      rewrite Heq in Hins; try discriminate; injection Hins as <-; cbn [trace].
    + exact IH.
    + rewrite (discipline_app _ _ _ IH). cbn [discipline].
      by destruct (decide (t = t)).
  - apply history_represents in Hh.
    destruct (insert_cases ks w k Hh)
      as [(_ & Heq)|[(_ & _ & _ & Heq)|(t & n & _ & _ & _ & _ & _ & Heq)]];
      rewrite Heq in Hins; try discriminate. injection Hins as _ <-. exact IH.
  - apply history_represents in Hh.
    destruct (traverse_represents ks w fuel Hh) as (ls & _ & Heq).
    rewrite Heq in Htr. case_decide; [|discriminate]. injection Htr as <-.
    cbn [trace]. rewrite (discipline_app _ _ _ IH). apply discipline_visits.
Qed.

Lemma history_discipline_witness :
  discipline None
    (trace (world_after (traverse 3) (world_after (insert 7) main_list)))
  = true.
Proof.
  apply (history_discipline [5; 6; 7]).
  apply (hist_traverse _ (world_after (insert 7) main_list) 3).
  - apply (hist_insert [5; 6] main_list 7); [exact history_main_list|].
    vm_compute. reflexivity.
  - vm_compute. reflexivity.
Defined.

(** ** The list: destruction *)

Lemma delete_node_live a n w :
  heap w !! a = Some n -> n_lock n = false ->
  delete_node (Some a) w = Done tt (with_heap (delete a (heap w)) w).
Proof.
  intros H Hl. unfold delete_node.
  rewrite (bind_Done _ _ _ _ _ (load_live _ _ _ H)). by rewrite Hl.
Qed.

(** The loop of the destructor on a chain of unlocked nodes. *)
Lemma destroy_chain ls : forall w fuel,
  lseg (heap w) (head (self w)) ls None ->
  NoDup ls ->
  (forall a, a ∈ ls -> exists n, heap w !! a = Some n /\ n_lock n = false) ->
  destroy fuel w =
    if decide (length ls <= fuel)%nat
    then Done tt (mk_world (release ls (heap w))
                    (mk_List None (tail (self w)) (size (self w)))
                    (grants w) (trace w))
    else Unfinished.
Proof.
  induction ls as [|a ls IH]; intros w fuel Hseg Hnd Hfree.
  - cbn [lseg] in Hseg. cbn [length release].
    case_decide; [|lia].
    destruct fuel; cbn [destroy]; step ltac:(reflexivity); rewrite Hseg;
      (destruct (decide _) as [_|]; [|congruence]);
      destruct w as [h [hd tl sz] g t]; cbn in *; by subst.
  - cbn [lseg] in Hseg. destruct Hseg as (Hhd & n & Hn & Hrest).
    destruct (Hfree a) as (n' & Hn' & Hl); [apply elem_of_cons; by left|].
    rewrite Hn in Hn'. injection Hn' as <-.
    apply NoDup_cons in Hnd as [Ha Hnd].
    destruct fuel as [|fuel]; cbn [destroy length].
    + step ltac:(reflexivity). rewrite Hhd.
      destruct (decide _) as [|_]; [discriminate|]. case_decide; [lia|reflexivity].
    + step ltac:(reflexivity). rewrite Hhd.
      destruct (decide _) as [|_]; [discriminate|].
      step ltac:(reflexivity). step ltac:(reflexivity). rewrite !Hhd.
      unfold get_next.
      step ltac:(erewrite bind_Done by (apply load_live, Hn); reflexivity).
      step ltac:(reflexivity).
      step ltac:(apply (delete_node_live a n); assumption).
      assert (Hsame : forall b, b ∈ ls -> delete a (heap w) !! b = heap w !! b).
      { intros b Hb. apply lookup_delete_ne. intros ->. by apply Ha. }
      rewrite IH; cbn [heap self head tail size grants trace release length].
      * repeat case_decide; try lia; reflexivity.
      * eapply lseg_frame; [exact Hsame|exact Hrest].
      * exact Hnd.
      * intros b Hb. rewrite (Hsame b Hb). apply Hfree, elem_of_cons. by right.
Qed.

Lemma dom_release ls (h : gmap positive node_t) :
  dom (release ls h) = dom h ∖ list_to_set ls.
Proof.
  revert h. induction ls as [|a ls IH]; intros h; cbn [release].
  - apply set_eq. intros x.
    rewrite elem_of_difference, elem_of_list_to_set, elem_of_nil. tauto.
  - rewrite IH, dom_delete_L. apply set_eq. intros x.
    rewrite !elem_of_difference, !elem_of_list_to_set, elem_of_cons,
      elem_of_singleton. tauto.
Qed.

Lemma release_all ls (h : gmap positive node_t) :
  dom h = list_to_set ls -> release ls h = ∅.
Proof.
  intros Hdom. apply dom_empty_iff_L. rewrite dom_release, Hdom.
  apply set_eq. intros x. rewrite elem_of_difference, elem_of_empty. tauto.
Qed.

Lemma represents_destroy ks w fuel :
  represents ks w ->
  (length ks <= fuel)%nat ->
  destroy fuel w =
    Done tt (mk_world ∅ (mk_List None (tail (self w)) (size (self w)))
               (grants w) (trace w)).
Proof.
  intros (ls & Hseg & Hnd & _ & Hkeys & Hdom) Hfuel.
  pose proof (Forall2_length _ _ _ Hkeys) as Hlen.
  rewrite (destroy_chain ls w fuel Hseg Hnd).
  - case_decide; [|lia]. by rewrite (release_all ls).
  - intros a Ha. apply list_elem_of_lookup in Ha as [i Hi].
    destruct (Forall2_lookup_l _ _ _ _ _ Hkeys Hi) as (k & _ & n & Hn & _ & Hl).
    by exists n.
Qed.

(** X9. On a list reached by appends and traversals that holds N keys, the
    destructor, given budget for N nodes, returns after releasing every
    node: N nodes were live, none is afterwards; [head] ends null; [tail]
    is not reset and still holds the address of the last node; no mutex is
    touched. *)
Theorem destroy_releases_all ks w fuel :
  history ks w ->
  (length ks <= fuel)%nat ->
  exists w',
    destroy fuel w = Done tt w' /\
    base.size (heap w) = length ks /\
    heap w' = ∅ /\
    head (self w') = None /\
    tail (self w') = tail (self w) /\
    trace w' = trace w.
Proof.
  intros Hh Hfuel. apply history_represents in Hh.
  eexists. split; [by apply (represents_destroy ks)|].
  split; [by apply represents_node_count|]. by repeat split.
Qed.

Lemma destroy_releases_all_witness :
  exists w',
    destroy 2 main_list = Done tt w' /\
    base.size (heap main_list) = length [5; 6] /\
    heap w' = ∅ /\
    head (self w') = None /\
    tail (self w') = tail (self main_list) /\
    trace w' = trace main_list.
Proof.
  apply (destroy_releases_all [5; 6] main_list 2).
  - exact history_main_list.
  - simpl. lia.
Defined.

(** ** The list: a whole run *)

Lemma printed_app t1 t2 : printed (t1 ++ t2) = printed t1 ++ printed t2.
Proof.
  induction t1 as [|[a|a|k] t1 IH]; cbn [app printed]; [reflexivity|auto|auto|].
  by rewrite IH.
Qed.

Lemma appends_print_nothing ks : forall ks0 w w',
  represents ks0 w -> appends ks w = Done tt w' ->
  printed (trace w') = printed (trace w).
Proof.
  induction ks as [|k ks IH]; intros ks0 w w' Hrep Happ; cbn [appends] in Happ.
  - by injection Happ as <-.
  - unfold mbind, M_bind, bind in Happ.
    destruct (insert k w) as [r w1| | |] eqn:Hins; try discriminate.
    pose proof (insert_Done_zero _ _ _ _ Hins) as ->.
    rewrite (IH (ks0 ++ [k]) w1 w' (represents_insert _ _ _ _ Hrep Hins) Happ).
    destruct (insert_cases ks0 w k Hrep)
      as [(_ & Heq)|[(_ & _ & _ & Heq)|(t & n & _ & _ & _ & _ & _ & Heq)]];
      rewrite Heq in Hins; try discriminate; injection Hins as <-; cbn [trace].
    + reflexivity.
    + rewrite printed_app. cbn. by rewrite app_nil_r.
Qed.

(** X12. For any keys, a program of the shape of [main] (append the keys to
    a fresh list, traverse, destroy), run with a store that grants every
    request and budget for one loop round per key, returns 0, has printed
    exactly the keys in the order given, and leaves no node live. *)
Theorem session_runs ks fuel :
  (length ks <= fuel)%nat ->
  exists w',
    session ks fuel (construct []) = Done 0 w' /\
    printed (trace w') = ks /\
    heap w' = ∅.
Proof.
  intros Hfuel.
  destruct (appends_all_granted ks [] (construct [])) as (w1 & Happ & Hh);
    [apply hist_construct|reflexivity|]. cbn [app] in Hh.
  pose proof (history_represents _ _ Hh) as Hrep.
  pose proof (appends_print_nothing ks [] _ _ (represents_construct []) Happ) as Hpr.
  destruct (traverse_represents ks w1 fuel Hrep) as (ls & Hlen & Htr).
  case_decide; [|lia].
  assert (Hh2 : history ks (mk_world (heap w1) (self w1) (grants w1)
                              (trace w1 ++ visits ls ks))).
  { by apply (hist_traverse ks w1 fuel). }
  unfold session. rewrite (bind_Done _ _ _ _ _ Happ), (bind_Done _ _ _ _ _ Htr).
  rewrite (bind_Done _ _ _ _ _
             (represents_destroy ks _ fuel (history_represents _ _ Hh2) Hfuel)).
  eexists. split; [reflexivity|]. cbn [trace heap].
  split; [|reflexivity].
  rewrite printed_app, Hpr, printed_visits by assumption. reflexivity.
Qed.

Lemma session_runs_witness :
  exists w',
    session [5; 6] 2 (construct []) = Done 0 w' /\
    printed (trace w') = [5; 6] /\
    heap w' = ∅.
Proof. apply (session_runs [5; 6] 2). simpl. lia. Defined.

End ListProperties.

(** ** The counters: further properties *)

Section CounterExtras.
Import Int.

(** *** The shared counter *)

Lemma wrap_wrap z : wrap (wrap z) = wrap z.
Proof. apply wrap_id, wrap_in_range. Qed.

Lemma shared_increment_loop n c :
  in_range (SharedCounter.counter c) ->
  SharedCounter.increment_loop n c =
    SharedCounter.mk (wrap (SharedCounter.counter c + Z.of_nat n)).
Proof.
  revert c. induction n as [|n IH]; intros c Hc; cbn [SharedCounter.increment_loop].
  - rewrite Z.add_0_r, wrap_id by assumption. by destruct c.
  - rewrite IH by apply wrap_in_range.
    cbn [SharedCounter.increment SharedCounter.counter].
    rewrite wrap_add_l. do 2 f_equal. lia.
Qed.

Lemma run_schedule_shared_count s c :
  in_range (SharedCounter.counter c) ->
  run_schedule_shared s c =
    SharedCounter.mk (wrap (SharedCounter.counter c + total_issued s)).
Proof.
  revert c. induction s as [|[id k] s IH]; intros c Hc;
    cbn [run_schedule_shared total_issued].
  - rewrite Z.add_0_r, wrap_id by assumption. by destruct c.
  - unfold SharedCounter.shared_counter_thread.
    rewrite shared_increment_loop by assumption.
    rewrite IH by apply wrap_in_range. cbn [SharedCounter.counter].
    rewrite wrap_add_l. do 2 f_equal. lia.
Qed.

(** X1. After any completed run of workers on a fresh shared counter,
    [get_count] returns the number of increments issued, reduced to 32
    bits; so it returns that number itself whenever it is at most
    INT_MAX. *)
Theorem shared_counter_count s :
  SharedCounter.get_count
    (run_schedule_shared s SharedCounter.construct) = wrap (total_issued s) /\
  (total_issued s <= INT_MAX ->
   SharedCounter.get_count
     (run_schedule_shared s SharedCounter.construct) = total_issued s).
Proof.
  assert (H0 : in_range (SharedCounter.counter SharedCounter.construct)).
  { cbn. unfold in_range, INT_MIN, INT_MAX. lia. }
  rewrite run_schedule_shared_count by exact H0.
  cbn [SharedCounter.get_count SharedCounter.counter SharedCounter.construct].
  rewrite Z.add_0_l. split; [reflexivity|].
  intros Hle. apply wrap_id.
  assert (0 <= total_issued s).
  { clear. induction s as [|[id k] s IH]; cbn [total_issued]; lia. }
  unfold in_range, INT_MIN, INT_MAX in *. lia.
Qed.

(** *** Counting the increments of a schedule *)

Lemma Zsum_fmap_add {A} (f g : A -> Z) l :
  Zsum ((fun i => f i + g i) <$> l) = Zsum (f <$> l) + Zsum (g <$> l).
Proof.
  induction l as [|x l IH]; unfold Zsum in *; cbn; [reflexivity|].
  rewrite IH. lia.
Qed.

Lemma Zsum_indicator id m n : forall a,
  Zsum ((fun i => if decide (id = i) then m else 0) <$> seqZ a (Z.of_nat n))
  = if decide (a <= id < a + Z.of_nat n) then m else 0.
Proof.
  induction n as [|n IH]; intros a.
  - cbn. case_decide; [lia|reflexivity].
  - rewrite seqZ_cons by lia. rewrite fmap_cons.
    replace (Z.pred (Z.of_nat (S n))) with (Z.of_nat n) by lia.
    change (Zsum (?x :: ?l)) with (x + Zsum l). rewrite IH.
    repeat case_decide; lia.
Qed.

Lemma sum_issued_cons C id k s :
  0 <= id < C ->
  sum_issued C ((id, k) :: s) = Z.max 0 k + sum_issued C s.
Proof.
  intros Hid. unfold sum_issued. cbn [issued].
  rewrite (Zsum_fmap_add (fun i => if decide (id = i) then Z.max 0 k else 0)
             (fun i => issued i s)).
  f_equal. rewrite <- (Z2Nat.id C) at 1 by lia. rewrite Zsum_indicator.
  case_decide; [reflexivity|lia].
Qed.

Lemma sum_issued_nil C : sum_issued C [] = 0.
Proof.
  unfold sum_issued. cbn [issued]. induction (seqZ 0 C) as [|x l IH];
    unfold Zsum in *; cbn; [reflexivity|]. by rewrite IH.
Qed.

(** The k_i of the workers add up to the number of increments issued. *)
Lemma sum_issued_total C s :
  Forall (fun b => 0 <= fst b < C) s -> sum_issued C s = total_issued s.
Proof.
  induction 1 as [|[id k] s Hid _ IH]; cbn [total_issued].
  - apply sum_issued_nil.
  - cbn [fst] in Hid. by rewrite sum_issued_cons, IH.
Qed.

Lemma vec_schedule_total C s :
  0 <= C ->
  Forall (fun b => 0 <= fst b < C) s ->
  sum_issued C s <= INT_MAX ->
  exists c',
    run_schedule s (Vec.mk (replicate (Z.to_nat C) 0) C) = Some c' /\
    Vec.num_threads c' = C /\
    Vec.thread_counters c' = (fun i => issued i s) <$> seqZ 0 C /\
    Vec.get_approximate_count c' = Some (sum_issued C s).
Proof.
  intros HC Hids Hsum. eexists.
  split; [apply run_schedule_slots; [by apply vec_construct_wf|assumption]|].
  cbn [Vec.thread_counters Vec.num_threads].
  rewrite slots_after_schedule by assumption.
  split; [reflexivity|]. split; [reflexivity|].
  assert (Hnn : Forall (fun x => 0 <= x) ((fun i => issued i s) <$> seqZ 0 C)).
  { apply Forall_fmap, Forall_forall. intros j _. apply issued_nonneg. }
  rewrite vec_total_foldl; cbn [Vec.thread_counters].
  - rewrite foldl_wrap_exact; try reflexivity; try lia; assumption.
  - repeat split; cbn; [lia| |].
    + by rewrite length_fmap, length_seqZ.
    + apply Forall_forall. intros x Hx.
      pose proof (Zsum_elem_le _ x Hnn Hx).
      pose proof (proj1 (Forall_forall _ _) Hnn x Hx) as Hx0. cbn in Hx0.
      unfold sum_issued in Hsum. unfold in_range, INT_MIN, INT_MAX in *. lia.
Qed.

(** X2. For every capacity C >= 1 and every completed run with worker ids in
    [0, C) that issues at most INT_MAX increments in all, the vector-backed
    bank and the shared counter end with the same count: the sharded total
    equals what [SharedCounter::get_count] returns. *)
Theorem sharded_matches_shared C s :
  1 <= C ->
  Forall (fun b => 0 <= fst b < C) s ->
  total_issued s <= INT_MAX ->
  exists c c',
    Vec.construct C = Returned c /\
    run_schedule s c = Some c' /\
    Vec.get_approximate_count c' =
      Some (SharedCounter.get_count
              (run_schedule_shared s SharedCounter.construct)).
Proof.
  intros HC Hids Hsum. rewrite <- (sum_issued_total C s Hids) in Hsum.
  destruct (vec_schedule_total C s ltac:(lia) Hids Hsum) as (c' & Hrun & _ & _ & Htot).
  eexists. exists c'. split; [apply vec_construct_ok; lia|].
  split; [exact Hrun|]. rewrite Htot. f_equal.
  rewrite run_schedule_shared_count
    by (cbn; unfold in_range, INT_MIN, INT_MAX; lia).
  cbn [SharedCounter.get_count SharedCounter.counter SharedCounter.construct].
  rewrite Z.add_0_l, <- (sum_issued_total C s Hids). symmetry. apply wrap_id.
  pose proof (Zsum_nonneg ((fun i => issued i s) <$> seqZ 0 C)) as Hnn.
  unfold sum_issued in *. unfold in_range, INT_MIN, INT_MAX in *.
  split; [|lia]. etransitivity; [|apply Hnn]; [lia|].
  apply Forall_fmap, Forall_forall. intros j _. apply issued_nonneg.
Qed.

Lemma sharded_matches_shared_witness :
  exists c c',
    Vec.construct 3 = Returned c /\
    run_schedule [(0, 2); (2, 5); (1, 1); (0, 4)] c = Some c' /\
    Vec.get_approximate_count c' =
      Some (SharedCounter.get_count
              (run_schedule_shared [(0, 2); (2, 5); (1, 1); (0, 4)]
                 SharedCounter.construct)).
Proof.
  apply sharded_matches_shared.
  - lia.
  - repeat (apply Forall_cons_2; [simpl; lia|]). apply Forall_nil_2.
  - vm_compute. discriminate.
Defined.

(** *** Reading one slot *)

(** X4. After any completed run on a fresh vector-backed bank,
    [get_thread_count(i)] returns the number of increments worker i issued,
    reduced to 32 bits, whatever the other workers did. *)
Theorem slot_after_schedule C s i :
  0 <= i < C ->
  Forall (fun b => 0 <= fst b < C) s ->
  exists c c',
    Vec.construct C = Returned c /\
    run_schedule s c = Some c' /\
    Vec.get_thread_count i c' = Some (wrap (issued i s)).
Proof.
  intros Hi Hids. eexists. eexists. split; [apply vec_construct_ok; lia|].
  split; [apply run_schedule_slots; [apply vec_construct_wf; lia|assumption]|].
  unfold Vec.get_thread_count. cbn [Vec.thread_counters].
  apply at_index_Some. split; [lia|].
  rewrite list_lookup_imap, lookup_replicate_2 by lia. cbn.
  rewrite Z.add_0_l. do 3 f_equal. lia.
Qed.

Lemma slot_after_schedule_witness :
  exists c c',
    Vec.construct 3 = Returned c /\
    run_schedule [(0, 2); (2, 5); (1, 1); (0, 4)] c = Some c' /\
    Vec.get_thread_count 0 c'
      = Some (wrap (issued 0 [(0, 2); (2, 5); (1, 1); (0, 4)])).
Proof.
  apply slot_after_schedule.
  - lia.
  - repeat (apply Forall_cons_2; [simpl; lia|]). apply Forall_nil_2.
Defined.

(** X8. The bank a run leaves depends only on how many increments each
    worker issued, not on how the workers were interleaved. *)
Theorem schedule_order_irrelevant c s1 s2 :
  Vec.wf c ->
  Forall (fun b => 0 <= fst b < Vec.num_threads c) s1 ->
  Forall (fun b => 0 <= fst b < Vec.num_threads c) s2 ->
  (forall i, 0 <= i < Vec.num_threads c -> issued i s1 = issued i s2) ->
  is_Some (run_schedule s1 c) /\ run_schedule s1 c = run_schedule s2 c.
Proof.
  intros Hwf H1 H2 Hsame.
  rewrite (run_schedule_slots s1 c Hwf H1), (run_schedule_slots s2 c Hwf H2).
  split; [by eexists|]. do 2 f_equal.
  destruct Hwf as (Hn & Hlen & _).
  apply list_eq. intros i. rewrite !list_lookup_imap.
  destruct (Vec.thread_counters c !! i) as [x|] eqn:Hx; [|reflexivity].
  cbn. apply lookup_lt_Some in Hx. rewrite Hsame by lia. reflexivity.
Qed.

Lemma schedule_order_irrelevant_witness :
  is_Some (run_schedule [(0, 1); (1, 2); (0, 1)] (Vec.mk [0; 0] 2)) /\
  run_schedule [(0, 1); (1, 2); (0, 1)] (Vec.mk [0; 0] 2)
  = run_schedule [(1, 1); (0, 2); (1, 1)] (Vec.mk [0; 0] 2).
Proof.
  apply schedule_order_irrelevant.
  - exact (vec_construct_wf 2 ltac:(lia)).
  - repeat (apply Forall_cons_2; [simpl; lia|]). apply Forall_nil_2.
  - repeat (apply Forall_cons_2; [simpl; lia|]). apply Forall_nil_2.
  - intros i Hi. cbn [Vec.num_threads] in Hi.
    assert (i = 0 \/ i = 1) as [->| ->] by lia; reflexivity.
Defined.

(** *** The array-backed bank under a schedule *)

Lemma same_bank_increment_loop C n id : forall cv ca,
  same_bank C cv ca -> 0 <= id < C ->
  exists cv' ca',
    Vec.increment_loop n id cv = Some cv' /\
    Arr.increment_loop n id ca = Some ca' /\
    same_bank C cv' ca'.
Proof.
  induction n as [|n IH]; intros cv ca Hs Hid;
    cbn [Vec.increment_loop Arr.increment_loop].
  - by exists cv, ca.
  - destruct (same_bank_increment _ _ _ _ Hs Hid) as (cv1 & ca1 & -> & -> & Hs1).
    cbn [mbind option_bind]. by apply IH.
Qed.

Lemma same_bank_schedule C s : forall cv ca,
  same_bank C cv ca ->
  Forall (fun b => 0 <= fst b < C) s ->
  exists cv' ca',
    run_schedule s cv = Some cv' /\
    run_schedule_arr s ca = Some ca' /\
    same_bank C cv' ca'.
Proof.
  induction s as [|[id k] s IH]; intros cv ca Hs Hids;
    cbn [run_schedule run_schedule_arr].
  - by exists cv, ca.
  - apply Forall_cons in Hids as [Hid Hids]. cbn [fst] in Hid.
    unfold Vec.counter_thread, Arr.counter_thread_array.
    destruct (same_bank_increment_loop C (Z.to_nat k) id _ _ Hs Hid)
      as (cv1 & ca1 & -> & -> & Hs1).
    cbn [mbind option_bind]. by apply IH.
Qed.

(** X3. For every capacity C with 1 <= C <= 16, whatever the member array
    held before construction, and every completed run in which the workers
    0 .. C-1 issue at most INT_MAX increments in all through
    [counter_thread_array], [get_approximate_count] of the array-backed bank
    returns exactly the number of increments issued. *)
Theorem arr_total_after_increments C cells s :
  1 <= C <= 16 ->
  length cells = 16%nat ->
  Forall (fun b => 0 <= fst b < C) s ->
  sum_issued C s <= INT_MAX ->
  exists c c',
    Arr.construct cells C = Returned c /\
    run_schedule_arr s c = Some c' /\
    Arr.get_approximate_count c' = Some (sum_issued C s).
Proof.
  intros HC Hlen Hids Hsum.
  destruct (same_bank_schedule C s _ _
              (same_bank_construct C cells ltac:(lia) Hlen) Hids)
    as (cv' & ca' & Hv & Ha & Hs').
  destruct (vec_schedule_total C s ltac:(lia) Hids Hsum)
    as (cv2 & Hv2 & _ & _ & Htot).
  rewrite Hv in Hv2. injection Hv2 as <-.
  destruct (same_bank_total C cv' ca' Hs' ltac:(lia)) as (r & Hr1 & Hr2).
  rewrite Htot in Hr1. injection Hr1 as <-.
  eexists. exists ca'.
  split; [apply arr_construct_ok; unfold Arr.MAX_THREADS; lia|]. by split.
Qed.

Lemma arr_total_after_increments_witness :
  exists c c',
    Arr.construct (replicate 16 (-7)) 4 = Returned c /\
    run_schedule_arr [(0, 1000000); (1, 1000000); (2, 1000000); (3, 1000000)] c
      = Some c' /\
    Arr.get_approximate_count c' = Some 4000000.
Proof.
  apply (arr_total_after_increments 4 (replicate 16 (-7))
           [(0, 1000000); (1, 1000000); (2, 1000000); (3, 1000000)]).
  - lia.
  - reflexivity.
  - repeat (apply Forall_cons_2; [simpl; lia|]). apply Forall_nil_2.
  - vm_compute. discriminate.
Defined.

(** *** A bank just constructed *)

(** X5. A bank of either class constructed with capacity C, 0 <= C <= 16,
    reads 0 in every slot i < C and 0 in total, whatever the member array
    of the array-backed class held before its constructor ran. *)
Theorem fresh_bank_reads_zero C cells :
  0 <= C <= 16 ->
  length cells = 16%nat ->
  exists cv ca,
    Vec.construct C = Returned cv /\
    Arr.construct cells C = Returned ca /\
    Vec.get_approximate_count cv = Some 0 /\
    Arr.get_approximate_count ca = Some 0 /\
    forall i, 0 <= i < C ->
      Vec.get_thread_count i cv = Some 0 /\ Arr.get_thread_count i ca = Some 0.
Proof.
  intros HC Hlen.
  pose proof (same_bank_construct C cells HC Hlen) as Hs.
  do 2 eexists. split; [apply vec_construct_ok; lia|].
  split; [apply arr_construct_ok; unfold Arr.MAX_THREADS; lia|].
  assert (Hv : Vec.get_approximate_count (Vec.mk (replicate (Z.to_nat C) 0) C)
               = Some 0).
  { destruct (vec_schedule_total C [] ltac:(lia) (Forall_nil_2 _))
      as (c' & Hrun & _ & _ & Htot).
    - rewrite sum_issued_nil. unfold INT_MAX. lia.
    - cbn [run_schedule] in Hrun. injection Hrun as <-.
      by rewrite sum_issued_nil in Htot. }
  destruct (same_bank_total C _ _ Hs ltac:(lia)) as (r & Hr1 & Hr2).
  rewrite Hv in Hr1. injection Hr1 as <-.
  split; [exact Hv|]. split; [exact Hr2|].
  intros i Hi. destruct (same_bank_at_index C _ _ i Hs Hi) as (x & Hx & Hx').
  unfold Vec.get_thread_count, Arr.get_thread_count. rewrite Hx, Hx'.
  apply at_index_Some in Hx as [_ Hx]. cbn [Vec.thread_counters] in Hx.
  apply lookup_replicate in Hx as [-> _]. by split.
Qed.

Lemma fresh_bank_reads_zero_witness :
  exists cv ca,
    Vec.construct 4 = Returned cv /\
    Arr.construct (replicate 16 (-7)) 4 = Returned ca /\
    Vec.get_approximate_count cv = Some 0 /\
    Arr.get_approximate_count ca = Some 0 /\
    forall i, 0 <= i < 4 ->
      Vec.get_thread_count i cv = Some 0 /\ Arr.get_thread_count i ca = Some 0.
Proof. apply fresh_bank_reads_zero; [lia|reflexivity]. Defined.

(** *** The total and one more increment *)

Lemma Zsum_insert l i x y :
  l !! i = Some x -> Zsum (<[i := y]> l) = Zsum l - x + y.
Proof.
  revert i. induction l as [|z l IH]; intros [|i] Hi; try discriminate.
  - injection Hi as ->. unfold Zsum. cbn. lia.
  - change (Zsum (z :: <[i := y]> l) = Zsum (z :: l) - x + y).
    change (z + Zsum (<[i := y]> l) = z + Zsum l - x + y).
    rewrite (IH i Hi). lia.
Qed.

Lemma vec_total_exact c :
  Vec.wf c ->
  Forall (fun x => 0 <= x) (Vec.thread_counters c) ->
  Zsum (Vec.thread_counters c) <= INT_MAX ->
  Vec.get_approximate_count c = Some (Zsum (Vec.thread_counters c)).
Proof.
  intros Hwf Hnn Hsum. rewrite vec_total_foldl by assumption.
  rewrite foldl_wrap_exact; try assumption; try reflexivity; lia.
Qed.

Lemma vec_total_increment c id :
  Vec.wf c ->
  0 <= id < Vec.num_threads c ->
  Forall (fun x => 0 <= x) (Vec.thread_counters c) ->
  Zsum (Vec.thread_counters c) < INT_MAX ->
  exists c',
    Vec.increment id c = Some c' /\
    Vec.get_approximate_count c = Some (Zsum (Vec.thread_counters c)) /\
    Vec.get_approximate_count c' = Some (Zsum (Vec.thread_counters c) + 1).
Proof.
  intros Hwf Hid Hnn Hsum. pose proof Hwf as (Hn & Hlen & Hall).
  destruct (at_index_lt (Vec.thread_counters c) id) as [x Hx]; [lia|].
  pose proof (vec_increment_Some _ _ _ Hx) as Hinc.
  eexists. split; [exact Hinc|].
  split; [apply vec_total_exact; [assumption|assumption|lia]|].
  apply at_index_Some in Hx as [_ Hx].
  assert (Hx0 : 0 <= x) by exact (Forall_lookup_1 _ _ _ _ Hnn Hx).
  assert (Hxle : x <= Zsum (Vec.thread_counters c)).
  { apply Zsum_elem_le; [assumption|]. by eapply list_elem_of_lookup_2. }
  assert (Hw : wrap (x + 1) = x + 1).
  { apply wrap_id. unfold in_range, INT_MIN, INT_MAX in *. lia. }
  rewrite vec_total_exact; cbn [Vec.thread_counters Vec.num_threads].
  - rewrite (Zsum_insert _ _ x) by assumption. f_equal. lia.
  - by apply (vec_increment_wf id c).
  - apply Forall_insert; [assumption|lia].
  - rewrite (Zsum_insert _ _ x) by assumption. lia.
Qed.

Lemma same_bank_in_use ca :
  Arr.wf ca -> 0 <= Arr.num_threads ca ->
  same_bank (Arr.num_threads ca) (Vec.mk (in_use ca) (Arr.num_threads ca)) ca.
Proof.
  intros (Hn & Hlen & _) H0. unfold Arr.MAX_THREADS in *.
  repeat split; cbn [Vec.thread_counters Vec.num_threads].
  unfold in_use. rewrite length_take. lia.
Qed.

(** X7. In a bank of either class whose slots in use are non-negative and
    add up to less than INT_MAX, [get_approximate_count] returns the sum of
    the slots, and after one [increment(id)] with 0 <= id < capacity (each
    bank with a worker id of its own, [idv] and [ida]) it returns one
    more. *)
Theorem total_counts_increment cv ca idv ida :
  Vec.wf cv -> Arr.wf ca ->
  0 <= idv < Vec.num_threads cv ->
  0 <= ida < Arr.num_threads ca ->
  Forall (fun x => 0 <= x) (Vec.thread_counters cv) ->
  Forall (fun x => 0 <= x) (in_use ca) ->
  Zsum (Vec.thread_counters cv) < INT_MAX ->
  Zsum (in_use ca) < INT_MAX ->
  (exists cv',
      Vec.increment idv cv = Some cv' /\
      Vec.get_approximate_count cv = Some (Zsum (Vec.thread_counters cv)) /\
      Vec.get_approximate_count cv'
        = Some (Zsum (Vec.thread_counters cv) + 1)) /\
  (exists ca',
      Arr.increment ida ca = Some ca' /\
      Arr.get_approximate_count ca = Some (Zsum (in_use ca)) /\
      Arr.get_approximate_count ca' = Some (Zsum (in_use ca) + 1)).
Proof.
  intros Hwv Hwa Hiv Hia Hnv Hna Hsv Hsa.
  split; [by apply vec_total_increment|].
  pose proof (same_bank_in_use ca Hwa ltac:(lia)) as Hs.
  destruct (vec_total_increment (Vec.mk (in_use ca) (Arr.num_threads ca)) ida)
    as (cv' & Hinc & Ht & Ht'); cbn [Vec.thread_counters Vec.num_threads];
    try assumption.
  { destruct Hwa as (Hn & Hlen & Hall). unfold Arr.MAX_THREADS in *.
    repeat split; cbn; [lia| |].
    - unfold in_use. rewrite length_take. lia.
    - by apply Forall_take. }
  destruct (same_bank_increment _ _ _ ida Hs Hia) as (cv2 & ca' & Hv2 & Ha' & Hs').
  rewrite Hinc in Hv2. injection Hv2 as <-.
  destruct (same_bank_total _ _ _ Hs ltac:(lia)) as (r & Hr1 & Hr2).
  destruct (same_bank_total _ _ _ Hs' ltac:(lia)) as (r' & Hr1' & Hr2').
  cbn [Vec.thread_counters] in Ht, Ht'.
  exists ca'. split; [exact Ha'|]. split; congruence.
Qed.

(** A vector-backed bank of 32 workers, worker 20; an array-backed bank of
    3 workers, worker 1. *)
Lemma total_counts_increment_witness :
  (exists cv',
      Vec.increment 20 (Vec.mk (replicate 32 5) 32) = Some cv' /\
      Vec.get_approximate_count (Vec.mk (replicate 32 5) 32)
        = Some (Zsum (replicate 32 5)) /\
      Vec.get_approximate_count cv' = Some (Zsum (replicate 32 5) + 1)) /\
  (exists ca',
      Arr.increment 1 (Arr.mk (replicate 16 9) 3) = Some ca' /\
      Arr.get_approximate_count (Arr.mk (replicate 16 9) 3)
        = Some (Zsum (in_use (Arr.mk (replicate 16 9) 3))) /\
      Arr.get_approximate_count ca'
        = Some (Zsum (in_use (Arr.mk (replicate 16 9) 3)) + 1)).
Proof.
  apply (total_counts_increment (Vec.mk (replicate 32 5) 32)
           (Arr.mk (replicate 16 9) 3) 20 1).
  - repeat split; simpl; try lia.
    repeat (apply Forall_cons_2; [unfold in_range, INT_MIN, INT_MAX; lia|]);
      apply Forall_nil_2.
  - repeat split; simpl; try (unfold Arr.MAX_THREADS; lia).
    repeat (apply Forall_cons_2; [unfold in_range, INT_MIN, INT_MAX; lia|]);
      apply Forall_nil_2.
  - simpl. lia.
  - simpl. lia.
  - apply Forall_replicate. lia.
  - change (Forall (fun x => 0 <= x) [9; 9; 9]).
    repeat (apply Forall_cons_2; [lia|]). apply Forall_nil_2.
  - vm_compute. reflexivity.
  - vm_compute. reflexivity.
Defined.

(** *** Cells of the array beyond the capacity *)

Lemma arr_sum_loop_ext n : forall i total a a',
  0 <= i ->
  (forall j, (Z.to_nat i <= j < Z.to_nat i + n)%nat -> a !! j = a' !! j) ->
  Arr.sum_loop n i total a = Arr.sum_loop n i total a'.
Proof.
  induction n as [|n IH]; intros i total a a' Hi Hsame; cbn [Arr.sum_loop].
  - reflexivity.
  - unfold at_index. destruct (Z.ltb_spec i 0); [lia|].
    rewrite <- (Hsame (Z.to_nat i)) by lia.
    destruct (a !! Z.to_nat i) as [x|]; [|reflexivity]. cbn [mbind option_bind].
    apply IH; [lia|]. intros j Hj. apply Hsame. lia.
Qed.

(** X6. The array-backed bank does not check a worker id against its
    capacity: [increment(id)] with capacity <= id < 16 is carried out on a
    cell of the array that is not in use, and changes neither the total
    nor what any slot below the capacity reads. *)
Theorem arr_increment_beyond_capacity ca id :
  Arr.wf ca ->
  Arr.num_threads ca <= id ->
  0 <= id < 16 ->
  exists x ca',
    Arr.increment id ca = Some ca' /\
    Arr.get_thread_count id ca = Some x /\
    Arr.get_thread_count id ca' = Some (wrap (x + 1)) /\
    Arr.get_approximate_count ca' = Arr.get_approximate_count ca /\
    forall j, 0 <= j < Arr.num_threads ca ->
      Arr.get_thread_count j ca' = Arr.get_thread_count j ca.
Proof.
  intros (Hn & Hlen & Hall) Hge Hid. unfold Arr.MAX_THREADS in *.
  destruct (at_index_lt (Arr.thread_counters ca) id) as [x Hx]; [lia|].
  exists x. eexists. split; [apply arr_increment_Some, Hx|].
  unfold Arr.get_thread_count, Arr.get_approximate_count.
  cbn [Arr.thread_counters Arr.num_threads].
  split; [exact Hx|]. split; [by eapply at_index_insert_eq|]. split.
  - apply arr_sum_loop_ext; [lia|]. intros j Hj.
    apply list_lookup_insert_ne. lia.
  - intros j Hj. apply at_index_insert_ne; lia.
Qed.

Lemma arr_increment_beyond_capacity_witness :
  exists x ca',
    Arr.increment 9 (Arr.mk (replicate 16 0) 4) = Some ca' /\
    Arr.get_thread_count 9 (Arr.mk (replicate 16 0) 4) = Some x /\
    Arr.get_thread_count 9 ca' = Some (wrap (x + 1)) /\
    Arr.get_approximate_count ca'
      = Arr.get_approximate_count (Arr.mk (replicate 16 0) 4) /\
    forall j, 0 <= j < 4 ->
      Arr.get_thread_count j ca'
        = Arr.get_thread_count j (Arr.mk (replicate 16 0) 4).
Proof.
  apply (arr_increment_beyond_capacity (Arr.mk (replicate 16 0) 4) 9).
  - repeat split; simpl; try (unfold Arr.MAX_THREADS; lia).
    repeat (apply Forall_cons_2; [unfold in_range, INT_MIN, INT_MAX; lia|]);
      apply Forall_nil_2.
  - simpl. lia.
  - lia.
Defined.

End CounterExtras.
